(** * Zaban client examples: batch translation

    A shallow embedding of the batch helpers of the example scripts

      - examples/batch_translation.py : [translate_file], [translate_dataset],
                                        [compare_translations],
                                        [progressive_translation]
      - examples/async_usage.py       : [batch_translations],
                                        [multi_language_translation]

    together with the pieces of Python they rest on: [str.strip], [range],
    list slicing, and [asyncio.gather] with its default
    [return_exceptions=False].

    The remote service and the [zaban] package that talks to it are outside
    the example scripts.  They enter the model as an environment [Env]: what
    awaiting the k-th coroutine built by [client.translation.create] gives
    (a result object or a raised exception), and how long it takes.
    [client.translation.create] is taken to be a coroutine function, so that
    calling it only builds the coroutine; whatever it raises, it raises when
    awaited.  Every call waits for the network at least once, so that the
    coroutines handed to one [gather] are all in flight before the first of
    them completes.  Entering and leaving an [async with] block has no
    effect of its own.

    Console output is not modelled, with one exception: evaluating the
    f-string [{elapsed_time/total:.2f}] divides by [total], and that
    division is kept because it can raise. *)

From Stdlib Require Import List ZArith NArith Lia Bool Arith PeanoNat.
From Stdlib Require Import Permutation Sorted Ascii.
From Stdlib Require String.
Import String.StringSyntax.
Delimit Scope string_scope with string.
Import ListNotations.

Set Implicit Arguments.

(** ** Python strings *)

(** A [str] is a sequence of Unicode code points. *)
Definition str := list N.

(** [str.isspace] on one character: the code points CPython's
    [_PyUnicode_IsWhitespace] accepts. *)
Definition isspace (c : N) : bool :=
  ((9 <=? c) && (c <=? 13) || (28 <=? c) && (c <=? 32)
   || (c =? 133) || (c =? 160) || (c =? 5760)
   || (8192 <=? c) && (c <=? 8202)
   || (c =? 8232) || (c =? 8233) || (c =? 8239) || (c =? 8287)
   || (c =? 12288))%N.

Fixpoint lstrip (s : str) : str :=
  match s with
  | [] => []
  | c :: s' => if isspace c then lstrip s' else s
  end.

Definition rstrip (s : str) : str := rev (lstrip (rev s)).

(** [s.strip()] *)
Definition strip (s : str) : str := rstrip (lstrip s).

(** A literal of the source, as a [str] (ASCII literals only). *)
Fixpoint of_string (s : String.string) : str :=
  match s with
  | String.EmptyString => []
  | String.String a s' => N_of_ascii a :: of_string s'
  end.

(** Truth value of a [str] in a condition: non-empty. *)
Definition truthy (s : str) : bool :=
  match s with [] => false | _ :: _ => true end.

(** [s + "\n"] *)
Definition newline : N := 10%N.
Definition add_newline (s : str) : str := s ++ [newline].

(** ** Python exceptions seen by the examples *)

Inductive Exc : Type :=
| AuthenticationError
| ValidationError
| ZabanError          (* any other error of the client's hierarchy *)
| ValueError
| ZeroDivisionError.

(** ** [range] and slicing *)

(** Number of elements of [range(start, stop, step)], [step <> 0]. *)
Definition range_len (start stop step : Z) : Z :=
  if (0 <? step)%Z
  then Z.max 0 ((stop - start + step - 1) / step)
  else Z.max 0 ((start - stop - step - 1) / (- step)).

(** [range(start, stop, step)] as the list a [for] loop walks through;
    a zero step raises [ValueError]. *)
Definition range (start stop step : Z) : Exc + list Z :=
  if (step =? 0)%Z then inl ValueError
  else inr (map (fun q => (start + Z.of_nat q * step)%Z)
                (seq 0 (Z.to_nat (range_len start stop step)))).

(** Normalisation of one slice bound against a length: negative bounds
    count from the end, and everything is clamped to [0, len]. *)
Definition slice_bound (len x : Z) : Z :=
  if (x <? 0)%Z then Z.max (x + len) 0 else Z.min x len.

(** [l[i : j]] *)
Definition slice {A} (l : list A) (i j : Z) : list A :=
  let len := Z.of_nat (length l) in
  let lo := slice_bound len i in
  let hi := slice_bound len j in
  firstn (Z.to_nat (hi - lo)) (skipn (Z.to_nat lo) l).

(** ** Requests, results, and the environment *)

(** Keyword arguments of [client.translation.create] as the batch helpers
    pass them. *)
Record TranslateReq : Type := mkReq {
  text : str;
  target_lang : str;
  auto_detect : bool
}.

(** The result object of a translation. *)
Record Translation : Type := mkTranslation {
  translated_text : str;
  source_lang : str;
  model : str
}.

(** What awaiting one coroutine gives. *)
Inductive Outcome : Type :=
| Success (r : Translation)
| Failure (e : Exc).

(** An [AsyncZaban] client as the examples see it.  [respond k rq] is what
    awaiting the k-th coroutine built in this run gives, [rq] being its
    request; [latency k] is the time it takes.  Coroutines are numbered
    from 0 in creation order. *)
Record Env : Type := mkEnv {
  respond : nat -> TranslateReq -> Outcome;
  latency : nat -> nat
}.

(** [AsyncZaban(api_key=...)]: the service decides, from the key, how the
    client it hands out behaves. *)
Definition Service : Type := str -> Env.

(** A coroutine object: its number and its request. *)
Notation Task := (nat * TranslateReq)%type (only parsing).

(** ** Observable events and the world *)

Inductive Event : Type :=
| Start (k : nat)      (* coroutine k begins to run *)
| Done (k : nat).      (* coroutine k has returned or raised *)

Record World : Type := mkWorld {
  issued : list TranslateReq;   (* coroutines built so far, oldest first *)
  events : list Event           (* oldest first *)
}.

Definition world0 : World := mkWorld [] [].

(** ** A state and exception monad *)

Inductive Res (A : Type) : Type :=
| Ret (a : A)
| Raise (e : Exc).
Arguments Raise {A} e.

Definition M (A : Type) : Type := World -> Res A * World.

Definition ret {A} (a : A) : M A := fun w => (Ret a, w).

Definition raise {A} (e : Exc) : M A := fun w => (Raise e, w).

Definition bind {A B} (m : M A) (f : A -> M B) : M B :=
  fun w => match m w with
           | (Ret a, w') => f a w'
           | (Raise e, w') => (Raise e, w')
           end.

Notation "x <- m ;; k" := (bind m (fun x => k))
  (at level 61, m at next level, right associativity).
Notation "' p <- m ;; k" := (bind m (fun x => match x with p => k end))
  (at level 61, p pattern, m at next level, right associativity).

(** [for x in xs: acc = body x acc] *)
Fixpoint for_each {A S} (xs : list A) (acc : S) (body : A -> S -> M S) : M S :=
  match xs with
  | [] => ret acc
  | x :: xs' => acc' <- body x acc ;; for_each xs' acc' body
  end.

(** Lifting of a Python operation that may raise before it has any effect. *)
Definition lift {A} (r : Exc + A) : M A :=
  match r with inl e => raise e | inr a => ret a end.

(** ** The client call and [asyncio.gather] *)

(** [client.translation.create(...)]: builds the next coroutine. *)
Definition create (rq : TranslateReq) : M Task :=
  fun w => (Ret (length (issued w), rq),
            mkWorld (issued w ++ [rq]) (events w)).

Definition emit (evs : list Event) : M unit :=
  fun w => (Ret tt, mkWorld (issued w) (events w ++ evs)).

(** Order in which the coroutines of one [gather] complete: by latency,
    and in scheduling order among equals. *)
Fixpoint insert_by_latency (env : Env) (t : Task) (ts : list Task) : list Task :=
  match ts with
  | [] => [t]
  | u :: ts' =>
      if latency env (fst u) <=? latency env (fst t)
      then u :: insert_by_latency env t ts'
      else t :: ts
  end.

Definition completion_order (env : Env) (ts : list Task) : list Task :=
  fold_left (fun acc t => insert_by_latency env t acc) ts [].

(** The completions [gather] sees, in order, up to and including the first
    one that raised. *)
Fixpoint await_all (env : Env) (order : list Task) : list Event * option Exc :=
  match order with
  | [] => ([], None)
  | (k, rq) :: rest =>
      match respond env k rq with
      | Success _ =>
          let (evs, x) := await_all env rest in (Done k :: evs, x)
      | Failure e => ([Done k], Some e)
      end
  end.

(** The result objects of the coroutines that returned, in the order of
    the argument list. *)
Fixpoint payloads (env : Env) (ts : list Task) : list Translation :=
  match ts with
  | [] => []
  | (k, rq) :: ts' =>
      match respond env k rq with
      | Success r => r :: payloads env ts'
      | Failure _ => payloads env ts'
      end
  end.

(** [await asyncio.gather] on the coroutines [tasks].  Every coroutine is scheduled, in
    argument order, before any of them completes.  When all return, the
    value is the list of their results in argument order.  The first one
    to raise makes [gather] raise the same exception at once; the others
    are left running. *)
Definition gather (env : Env) (tasks : list Task) : M (list Translation) :=
  _ <- emit (map (fun t => Start (fst t)) tasks) ;;
  let (evs, x) := await_all env (completion_order env tasks) in
  _ <- emit evs ;;
  match x with
  | Some e => raise e
  | None => ret (payloads env tasks)
  end.

(** [zip] *)
Definition zip {A B} (l : list A) (l' : list B) : list (A * B) := combine l l'.

(** ** examples/batch_translation.py *)

Definition API_KEY : str := of_string "Your_ZABAN_API_KEY"%string.

(** The division in [{elapsed_time/total:.2f}]: a float divided by the
    int [total]. *)
Definition elapsed_over (total : nat) : M unit :=
  if total =? 0 then raise ZeroDivisionError else ret tt.

(** [translate_file].  [lines] is what [f.readlines()] gave for
    [input_file]; the value returned is the list handed to [f.writelines]
    for [output_file], which is the last thing the function does. *)
Definition translate_file (client : Env) (lines : list str)
    (target_lang : str) (batch_size : Z) : M (list str) :=
  let total_lines := length lines in
  let translated_lines := [] in
  starts <- lift (range 0 (Z.of_nat total_lines) batch_size) ;;
  translated_lines <-
    for_each starts translated_lines (fun i translated_lines =>
      let batch := slice lines i (i + batch_size) in
      tasks <-
        for_each batch [] (fun line tasks =>
          if truthy (strip line)
          then t <- create (mkReq (strip line) target_lang true) ;;
               ret (tasks ++ [t])
          else ret tasks) ;;
      results <- gather client tasks ;;
      ret (fold_left
             (fun translated_lines result =>
                translated_lines ++ [add_newline (translated_text result)])
             results translated_lines)) ;;
  ret translated_lines.

(** [translate_dataset] *)
Definition translate_dataset (service : Service) (texts target_langs : list str)
    (batch_size : Z) : M (list (str * str * str)) :=
  let client := service API_KEY in
  let results := [] in
  let total := length texts * length target_langs in
  let processed := 0 in
  starts <- lift (range 0 (Z.of_nat (length texts)) batch_size) ;;
  '(results, processed) <-
    for_each starts (results, processed) (fun i '(results, processed) =>
      let batch_texts := slice texts i (i + batch_size) in
      '(tasks, task_metadata) <-
        for_each batch_texts ([], []) (fun text acc =>
          for_each target_langs acc (fun target_lang '(tasks, task_metadata) =>
            t <- create (mkReq text target_lang true) ;;
            ret (tasks ++ [t], task_metadata ++ [(text, target_lang)]))) ;;
      batch_results <- gather client tasks ;;
      ret (fold_left
             (fun '(results, processed) '((text, target_lang), result) =>
                (results ++ [(text, target_lang, translated_text result)],
                 S processed))
             (zip task_metadata batch_results) (results, processed))) ;;
  _ <- elapsed_over total ;;
  ret results.

(** ** examples/async_usage.py *)

(** The body of [batch_translations] for a given list [texts]; the value
    returned is the list of pairs the final loop prints. *)
Definition batch_translations_on (service : Service) (texts : list str)
  : M (list (str * str)) :=
  let client := service (of_string "sk-your-api-key"%string) in
  tasks <-
    for_each texts [] (fun text tasks =>
      t <- create (mkReq text (of_string "hin_Deva"%string) true) ;;
      ret (tasks ++ [t])) ;;
  results <- gather client tasks ;;
  ret (map (fun '(original, result) => (original, translated_text result))
           (zip texts results)).

(** [batch_translations] *)
Definition batch_translations (service : Service) : M (list (str * str)) :=
  let texts := map of_string
    ["Hello"; "Goodbye"; "Thank you"; "Good morning"; "How are you?"]%string in
  batch_translations_on service texts.

(** * Vocabulary of the properties *)

(** The coroutines built for the requests [rqs] when [n] were built before. *)
Definition number (n : nat) (rqs : list TranslateReq) : list Task :=
  combine (seq n (length rqs)) rqs.

(** The requests [translate_dataset] builds for a list of texts: every
    text with every target language, texts first. *)
Definition dataset_reqs (target_langs texts : list str) : list TranslateReq :=
  flat_map (fun text => map (fun tl => mkReq text tl true) target_langs) texts.

(** The requests [translate_file] builds for a list of lines. *)
Definition file_reqs (tl : str) (lines : list str) : list TranslateReq :=
  flat_map (fun line =>
              if truthy (strip line) then [mkReq (strip line) tl true] else [])
           lines.

Definition is_ok (o : Outcome) : bool :=
  match o with Success _ => true | Failure _ => false end.

Definition task_ok (env : Env) (t : Task) : bool :=
  is_ok (respond env (fst t) (snd t)).

Definition all_ok (env : Env) (ts : list Task) : bool := forallb (task_ok env) ts.

(** The triple [translate_dataset] records for one coroutine that returned. *)
Definition triple (rq : TranslateReq) (r : Translation) : str * str * str :=
  (text rq, target_lang rq, translated_text r).

(** Number of coroutines started and not yet completed after a trace. *)
Fixpoint in_flight_from (n : nat) (tr : list Event) : nat :=
  match tr with
  | [] => n
  | Start _ :: tr' => in_flight_from (S n) tr'
  | Done _ :: tr' => in_flight_from (pred n) tr'
  end.

Definition in_flight (tr : list Event) : nat := in_flight_from 0 tr.

(** The coroutines started in a trace, in order. *)
Fixpoint started (tr : list Event) : list nat :=
  match tr with
  | [] => []
  | Start k :: tr' => k :: started tr'
  | Done _ :: tr' => started tr'
  end.

(** Largest number of coroutines in flight at any point of a trace. *)
Fixpoint peak_from (n : nat) (tr : list Event) : nat :=
  match tr with
  | [] => n
  | Start _ :: tr' => Nat.max n (peak_from (S n) tr')
  | Done _ :: tr' => Nat.max n (peak_from (pred n) tr')
  end.

Definition peak (tr : list Event) : nat := peak_from 0 tr.

(** Admission by whole groups: a coroutine that starts right after a
    completion starts when nothing is in flight any more. *)
Fixpoint barrier_from (n : nat) (tr : list Event) : bool :=
  match tr with
  | [] => true
  | Start _ :: tr' => barrier_from (S n) tr'
  | Done _ :: tr' =>
      match tr' with
      | Start _ :: _ => pred n =? 0
      | _ => true
      end && barrier_from (pred n) tr'
  end.

Definition barrier (tr : list Event) : bool := barrier_from 0 tr.

(** Sliding-window admission for a run that has [todo] coroutines still to
    start: while some remain, every completion is followed at once by the
    start of the next one. *)
Fixpoint sliding_from (todo : nat) (tr : list Event) : bool :=
  match tr with
  | [] => true
  | Start _ :: tr' => sliding_from (pred todo) tr'
  | Done _ :: tr' =>
      match tr' with
      | Start _ :: _ => true
      | _ => todo =? 0
      end && sliding_from todo tr'
  end.

(** The groups a loop [for i in range(0, len(l), b): l[i : i + b]] walks
    through, for a positive [b]. *)
Definition num_chunks (b n : nat) : nat := (n + b - 1) / b.

Definition chunks {A} (b : nat) (l : list A) : list (list A) :=
  map (fun q => firstn b (skipn (q * b) l)) (seq 0 (num_chunks b (length l))).

(** ** What one [gather] does *)

(** The exception [gather] raises on the coroutines [tasks], if any, and
    the events it adds to the trace. *)
Definition gather_exc (env : Env) (tasks : list Task) : option Exc :=
  snd (await_all env (completion_order env tasks)).

Definition gather_events (env : Env) (tasks : list Task) : list Event :=
  map (fun t => Start (fst t)) tasks
  ++ fst (await_all env (completion_order env tasks)).

(** ** The loop bodies and what they collect *)

(** The triples recorded for the coroutines that returned. *)
Definition triples (env : Env) (ts : list Task) : list (str * str * str) :=
  flat_map (fun t => match respond env (fst t) (snd t) with
                     | Success r => [triple (snd t) r]
                     | Failure _ => []
                     end) ts.

(** The body of the [for i in range(...)] loop of [translate_dataset], as a
    function of the slice [batch_texts]. *)
Definition dataset_step (client : Env) (target_langs batch_texts : list str)
    (acc : list (str * str * str) * nat) : M (list (str * str * str) * nat) :=
  let '(results, processed) := acc in
  '(tasks, task_metadata) <-
    for_each batch_texts ([], []) (fun text acc =>
      for_each target_langs acc (fun target_lang '(tasks, task_metadata) =>
        t <- create (mkReq text target_lang true) ;;
        ret (tasks ++ [t], task_metadata ++ [(text, target_lang)]))) ;;
  batch_results <- gather client tasks ;;
  ret (fold_left
         (fun '(results, processed) '((text, target_lang), result) =>
            (results ++ [(text, target_lang, translated_text result)],
             S processed))
         (zip task_metadata batch_results) (results, processed)).

(** The body of the [for i in range(...)] loop of [translate_file], as a
    function of the slice [batch]. *)
Definition file_step (client : Env) (target_lang : str) (batch : list str)
    (translated_lines : list str) : M (list str) :=
  tasks <-
    for_each batch [] (fun line tasks =>
      if truthy (strip line)
      then t <- create (mkReq (strip line) target_lang true) ;;
           ret (tasks ++ [t])
      else ret tasks) ;;
  results <- gather client tasks ;;
  ret (fold_left
         (fun translated_lines result =>
            translated_lines ++ [add_newline (translated_text result)])
         results translated_lines).

(** The lines written for the coroutines that returned. *)
Definition out_lines (env : Env) (ts : list Task) : list str :=
  flat_map (fun t => match respond env (fst t) (snd t) with
                     | Success r => [add_newline (translated_text r)]
                     | Failure _ => []
                     end) ts.

(** The pairs printed for the coroutines that returned. *)
Definition pairs (env : Env) (ts : list Task) : list (str * str) :=
  flat_map (fun t => match respond env (fst t) (snd t) with
                     | Success r => [(text (snd t), translated_text r)]
                     | Failure _ => []
                     end) ts.

(** ** Invariants of the world *)

(** What holds of the world at every point of a run in which no group has
    more than [cap] coroutines. *)
Record orderly (cap : nat) (w : World) : Prop := mkOrderly {
  orderly_started : started (events w) = seq 0 (length (issued w));
  orderly_peak : peak (events w) <= cap;
  orderly_barrier : barrier (events w) = true
}.

(** Nothing is in flight. *)
Definition quiet (w : World) : Prop := in_flight (events w) = 0.

(** When a loop has raised [e]: a coroutine that was built raised it. *)
Definition raised_by_call (client : Env) (cap : nat) (e : Exc) (w : World) : Prop :=
  (exists k rq, nth_error (issued w) k = Some rq
                /\ respond client k rq = Failure e)
  /\ orderly cap w.

(** What holds between two groups of [translate_dataset]: every call made
    so far has returned, [results] holds their triples, and nothing is in
    flight. *)
Definition dataset_inv (client : Env) (cap : nat)
    (acc : list (str * str * str) * nat) (w : World) : Prop :=
  all_ok client (number 0 (issued w)) = true
  /\ fst acc = triples client (number 0 (issued w))
  /\ snd acc = length (issued w)
  /\ orderly cap w /\ quiet w.

(** What holds between two groups of [translate_file]. *)
Definition file_inv (client : Env) (cap : nat)
    (translated_lines : list str) (w : World) : Prop :=
  all_ok client (number 0 (issued w)) = true
  /\ translated_lines = out_lines client (number 0 (issued w))
  /\ orderly cap w /\ quiet w.

(** ** Runs, services and inputs of the examples *)

(** A service for the examples below: every call returns, the translation
    of a text is the text followed by the language code, and later
    coroutines complete first. *)
Definition demo_env : Env :=
  mkEnv (fun _ rq => Success (mkTranslation (text rq ++ target_lang rq) [] []))
        (fun k => 9 - k).

Definition demo_service : Service := fun _ => demo_env.

(** A run returns a value. *)
Definition returns {A} (x : Res A * World) : Prop :=
  exists a w, x = (Ret a, w).

(** A service whose first call raises and whose other calls return. *)
Definition flaky_env : Env :=
  mkEnv (fun k rq => if k =? 0 then Failure ZabanError
                     else Success (mkTranslation (text rq ++ target_lang rq) [] []))
        (fun _ => 0).

Definition flaky_service : Service := fun _ => flaky_env.

(** The service rejects the key: every call made with it raises
    [AuthenticationError]. *)
Definition credential_rejected (service : Service) (api_key : str) : Prop :=
  forall k rq, respond (service api_key) k rq = Failure AuthenticationError.

(** A service that accepts one key only. *)
Definition strict_service : Service :=
  fun api_key =>
    if list_eq_dec N.eq_dec api_key (of_string "sk-valid"%string)
    then demo_env
    else mkEnv (fun _ _ => Failure AuthenticationError) (fun _ => 0).

(** The value a run returns, if it returns. *)
Definition output {A} (x : Res A * World) : option A :=
  match fst x with
  | Ret a => Some a
  | Raise _ => None
  end.

(** A service that answers the same request differently each time: the
    translation carries the number of the call. *)
Definition counting_env : Env :=
  mkEnv (fun k rq => Success (mkTranslation (text rq ++ [N.of_nat k]) [] []))
        (fun _ => 0).

(** A line that is empty or made of whitespace only. *)
Definition blank (line : str) : bool := forallb isspace line.

(** A file of four lines, two of them blank. *)
Definition demo_lines : list str :=
  [ [72; 105; 10]; [10]; [32; 9; 10]; [32; 66; 121; 101; 32] ]%N.

(** * Validation of a request

    The example scripts do not construct or validate requests themselves;
    the following two definitions stand for that part of the client. *)

(** [await coro] for one coroutine on its own. *)
Definition await (env : Env) (t : Task) : M Translation :=
  _ <- emit [Start (fst t)] ;;
  _ <- emit [Done (fst t)] ;;
  match respond env (fst t) (snd t) with
  | Success r => ret r
  | Failure e => raise e
  end.

(** Modelled from the spec: the construction-time validation of a request
    (section 4.1: for a translation, the text and the target language code
    are non-empty).  The [zaban] package, which builds and validates the
    requests, is not among the example scripts. *)
Definition validate (rq : TranslateReq) : Exc + TranslateReq :=
  if truthy (text rq) && truthy (target_lang rq) then inr rq
  else inl ValidationError.

(** Modelled from the spec: one translation request from construction to
    outcome (sections 4.1 and 4.2): the request is validated when it is
    constructed, and only a constructed request is handed to the remote
    invoker. *)
Definition request (env : Env) (rq : TranslateReq) : M Translation :=
  rq' <- lift (validate rq) ;;
  t <- create rq' ;;
  await env t.

(** * The other examples *)

(** ** examples/batch_translation.py: [compare_translations] *)

(** The body of [compare_translations] for a given [text] and a given list
    [target_langs] of pairs of a language code and a language name; the
    value returned is the list of rows the final loop prints, a language
    name and a translation each. *)
Definition compare_translations_on (service : Service) (text : str)
    (target_langs : list (str * str)) : M (list (str * str)) :=
  let client := service API_KEY in
  tasks <-
    for_each target_langs [] (fun '(lang_code, _) tasks =>
      t <- create (mkReq text lang_code true) ;;
      ret (tasks ++ [t])) ;;
  results <- gather client tasks ;;
  ret (map (fun '((_, lang_name), result) => (lang_name, translated_text result))
           (zip target_langs results)).

(** [compare_translations] *)
Definition compare_translations (service : Service) : M (list (str * str)) :=
  let text := of_string "Artificial intelligence is transforming the world"%string in
  let target_langs :=
    map (fun p => (of_string (fst p), of_string (snd p)))
      [("hin_Deva", "Hindi"); ("tam_Taml", "Tamil"); ("ben_Beng", "Bengali");
       ("tel_Telu", "Telugu"); ("mar_Deva", "Marathi")]%string in
  compare_translations_on service text target_langs.

(** ** examples/async_usage.py: [multi_language_translation] *)

(** The body of [multi_language_translation] for a given [text] and list
    [target_languages]; the value returned is the list of rows printed. *)
Definition multi_language_translation_on (service : Service) (text : str)
    (target_languages : list (str * str)) : M (list (str * str)) :=
  let client := service (of_string "sk-your-api-key"%string) in
  tasks <-
    for_each target_languages [] (fun '(lang_code, _) tasks =>
      t <- create (mkReq text lang_code true) ;;
      ret (tasks ++ [t])) ;;
  results <- gather client tasks ;;
  ret (map (fun '((_, lang_name), result) => (lang_name, translated_text result))
           (zip target_languages results)).

(** [multi_language_translation] *)
Definition multi_language_translation (service : Service) : M (list (str * str)) :=
  let text := of_string "Good morning"%string in
  let target_languages :=
    map (fun p => (of_string (fst p), of_string (snd p)))
      [("hin_Deva", "Hindi"); ("tam_Taml", "Tamil"); ("ben_Beng", "Bengali");
       ("tel_Telu", "Telugu"); ("guj_Gujr", "Gujarati")]%string in
  multi_language_translation_on service text target_languages.

(** ** examples/batch_translation.py: [progressive_translation] *)

(** The keyword arguments of one [client.translation.create] in full;
    [None] stands for a keyword that is not passed. *)
Record CreateArgs : Type := mkArgs {
  arg_text : str;
  arg_source_lang : option str;
  arg_target_lang : str;
  arg_auto_detect : option bool
}.

(** A client for calls awaited one after the other: what the k-th call of
    the run gives. *)
Definition Backend : Type := nat -> CreateArgs -> Outcome.

(** The loop of [progressive_translation], from the state it is in:
    [current_text] and [current_lang], the rows printed so far, and the
    calls made so far.  Each call is awaited before the next statement
    runs.  The value returned is the list of rows printed, a language name
    and a translation each. *)
Fixpoint progressive_loop (client : Backend) (chain : list (str * str))
    (current_text current_lang : str) (printed : list (str * str))
    (calls : list CreateArgs) : Res (list (str * str)) * list CreateArgs :=
  match chain with
  | [] => (Ret printed, calls)
  | (target_lang, lang_name) :: chain' =>
      let args := mkArgs current_text (Some current_lang) target_lang None in
      match client (length calls) args with
      | Success result =>
          progressive_loop client chain' (translated_text result) target_lang
            (printed ++ [(lang_name, translated_text result)]) (calls ++ [args])
      | Failure e => (Raise e, calls ++ [args])
      end
  end.

(** The body of [progressive_translation] for a given starting text and
    language and a given [chain]. *)
Definition progressive_translation_on (client : Backend)
    (current_text current_lang : str) (chain : list (str * str))
  : Res (list (str * str)) * list CreateArgs :=
  progressive_loop client chain current_text current_lang [] [].

(** [progressive_translation] *)
Definition progressive_translation (service : str -> Backend)
  : Res (list (str * str)) * list CreateArgs :=
  let client := service API_KEY in
  let current_text := of_string "Knowledge is power"%string in
  let current_lang := of_string "eng_Latn"%string in
  let chain :=
    map (fun p => (of_string (fst p), of_string (snd p)))
      [("hin_Deva", "Hindi"); ("ben_Beng", "Bengali"); ("tam_Taml", "Tamil");
       ("eng_Latn", "English (back)")]%string in
  progressive_translation_on client current_text current_lang chain.

(** ** More vocabulary on traces *)

(** The coroutines completed in a trace, in order. *)
Fixpoint completed (tr : list Event) : list nat :=
  match tr with
  | [] => []
  | Start _ :: tr' => completed tr'
  | Done k :: tr' => k :: completed tr'
  end.

(** The service of the examples with the order of completion reversed. *)
Definition demo_env_reversed : Env := mkEnv (respond demo_env) (fun k => k).

(** A client for calls made one after the other: the translation of a text
    is the text followed by the language code, and call [n] raises. *)
Definition backend_failing_at (n : nat) : Backend :=
  fun k args =>
    if k =? n then Failure ZabanError
    else Success (mkTranslation (arg_text args ++ arg_target_lang args) [] []).

(** A service whose call [n] raises and whose other calls return. *)
Definition env_failing_at (n : nat) : Env :=
  mkEnv (fun k rq => if k =? n then Failure ZabanError
                     else Success (mkTranslation (text rq ++ target_lang rq) [] []))
        (fun _ => 0).

(** * Lemmas on the Python primitives *)

Section Lists.
Context {A : Type}.

Lemma firstn_plus (a b : nat) (l : list A) :
  firstn (a + b) l = firstn a l ++ firstn b (skipn a l).
Proof.
  revert l; induction a as [|a IH]; intros l; simpl; [reflexivity|].
  destruct l as [|x l]; simpl.
  - now rewrite firstn_nil.
  - now rewrite IH.
Qed.

Lemma slice_nat (l : list A) (i b : nat) :
  0 < b ->
  slice l (Z.of_nat i) (Z.of_nat i + Z.of_nat b) = firstn b (skipn i l).
Proof.
  intros Hb. unfold slice, slice_bound.
  set (len := Z.of_nat (length l)).
  destruct (Z.ltb_spec (Z.of_nat i) 0) as [H|_]; [lia|].
  destruct (Z.ltb_spec (Z.of_nat i + Z.of_nat b) 0) as [H|_]; [lia|].
  destruct (Nat.le_gt_cases (length l) i) as [Hi|Hi].
  - rewrite (skipn_all2 l Hi).
    replace (Z.to_nat (Z.min (Z.of_nat i) len)) with (length l) by lia.
    rewrite skipn_all. now rewrite !firstn_nil.
  - replace (Z.to_nat (Z.min (Z.of_nat i) len)) with i by lia.
    destruct (Nat.le_gt_cases (length l) (i + b)) as [Hj|Hj].
    + replace (Z.to_nat (Z.min (Z.of_nat i + Z.of_nat b) len
                         - Z.min (Z.of_nat i) len))
        with (length l - i) by lia.
      rewrite <- (length_skipn i l).
      rewrite firstn_all. symmetry. apply firstn_all2.
      rewrite length_skipn. lia.
    + f_equal. lia.
Qed.
End Lists.

Section Chunks.
Context {A : Type}.

Lemma num_chunks_covers (b n : nat) : 0 < b -> n <= num_chunks b n * b.
Proof.
  intros Hb. unfold num_chunks.
  pose proof (Nat.div_mod_eq (n + b - 1) b) as E.
  pose proof (Nat.mod_upper_bound (n + b - 1) b ltac:(lia)) as U.
  nia.
Qed.

Lemma concat_chunks_upto (b : nat) (l : list A) (m : nat) :
  concat (map (fun q => firstn b (skipn (q * b) l)) (seq 0 m))
  = firstn (m * b) l.
Proof.
  induction m as [|m IH]; [reflexivity|].
  rewrite seq_S, map_app, concat_app, IH. simpl.
  rewrite app_nil_r, <- firstn_plus. f_equal. lia.
Qed.

Lemma concat_chunks (b : nat) (l : list A) :
  0 < b -> concat (chunks b l) = l.
Proof.
  intros Hb. unfold chunks. rewrite concat_chunks_upto.
  apply firstn_all2. now apply num_chunks_covers.
Qed.

Lemma chunks_length (b : nat) (l c : list A) :
  In c (chunks b l) -> length c <= b.
Proof.
  unfold chunks. rewrite in_map_iff. intros (q & <- & _).
  rewrite length_firstn. lia.
Qed.

Lemma chunks_nil (b : nat) : 0 < b -> chunks b (@nil A) = [].
Proof.
  intros Hb. unfold chunks, num_chunks. simpl.
  rewrite Nat.div_small by lia. reflexivity.
Qed.
End Chunks.

Lemma range_positive (n b : nat) :
  0 < b ->
  range 0 (Z.of_nat n) (Z.of_nat b)
  = inr (map (fun q => Z.of_nat (q * b)) (seq 0 (num_chunks b n))).
Proof.
  intros Hb. unfold range, range_len.
  destruct (Z.eqb_spec (Z.of_nat b) 0) as [H|_]; [lia|].
  destruct (Z.ltb_spec 0 (Z.of_nat b)) as [_|H]; [|lia].
  f_equal.
  replace (Z.to_nat (Z.max 0 ((Z.of_nat n - 0 + Z.of_nat b - 1) / Z.of_nat b)))
    with (num_chunks b n).
  - apply map_ext. intros q. lia.
  - unfold num_chunks.
    replace (Z.of_nat n - 0 + Z.of_nat b - 1)%Z with (Z.of_nat (n + b - 1)) by lia.
    rewrite <- Nat2Z.inj_div. generalize ((n + b - 1) / b). intros m. lia.
Qed.

Lemma range_negative (n : nat) (b : Z) :
  (b < 0)%Z -> range 0 (Z.of_nat n) b = inr [].
Proof.
  intros Hb. unfold range, range_len.
  destruct (Z.eqb_spec b 0) as [H|_]; [lia|].
  destruct (Z.ltb_spec 0 b) as [H|_]; [lia|].
  replace (Z.max 0 ((0 - Z.of_nat n - b - 1) / - b))%Z with 0%Z; [reflexivity|].
  assert ((0 - Z.of_nat n - b - 1) / - b < 1)%Z as H; [|lia].
  apply Z.div_lt_upper_bound; lia.
Qed.

(** * Lemmas on the monad and the loops *)

Lemma bind_ext {A B} (m m' : M A) (f f' : A -> M B) (w : World) :
  m w = m' w -> (forall a w', f a w' = f' a w') -> bind m f w = bind m' f' w.
Proof.
  intros Hm Hf. unfold bind. rewrite Hm.
  destruct (m' w) as [[a|e] w']; auto.
Qed.

Lemma for_each_map {A B S} (f : A -> B) (xs : list A) (body : B -> S -> M S) :
  forall acc w,
    for_each (map f xs) acc body w = for_each xs acc (fun x => body (f x)) w.
Proof.
  induction xs as [|x xs IH]; intros acc w; simpl; [reflexivity|].
  unfold bind. destruct (body (f x) acc w) as [[acc'|e] w']; auto.
Qed.

Lemma for_each_ext {A S} (xs : list A) (body body' : A -> S -> M S) :
  (forall x acc w, In x xs -> body x acc w = body' x acc w) ->
  forall acc w, for_each xs acc body w = for_each xs acc body' w.
Proof.
  induction xs as [|x xs IH]; intros E acc w; simpl; [reflexivity|].
  unfold bind. rewrite (E x acc w) by now left.
  destruct (body' x acc w) as [[acc'|e] w']; [|reflexivity].
  apply IH. intros; apply E; now right.
Qed.

Lemma number_app (n : nat) (rqs rqs' : list TranslateReq) :
  number n (rqs ++ rqs') = number n rqs ++ number (n + length rqs) rqs'.
Proof.
  unfold number. revert n; induction rqs as [|rq rqs IH]; intros n; simpl.
  - now rewrite Nat.add_0_r.
  - rewrite IH. replace (S n + length rqs) with (n + S (length rqs)) by lia.
    reflexivity.
Qed.

Lemma number_length (n : nat) (rqs : list TranslateReq) :
  length (number n rqs) = length rqs.
Proof. unfold number. rewrite length_combine, length_seq. lia. Qed.

Lemma number_fst (n : nat) (rqs : list TranslateReq) :
  map fst (number n rqs) = seq n (length rqs).
Proof.
  unfold number. revert n; induction rqs as [|rq rqs IH]; intros n; simpl;
    [reflexivity|]. now rewrite IH.
Qed.

Lemma number_snd (n : nat) (rqs : list TranslateReq) :
  map snd (number n rqs) = rqs.
Proof.
  unfold number. revert n; induction rqs as [|rq rqs IH]; intros n; simpl;
    [reflexivity|]. now rewrite IH.
Qed.

(** ** Building the coroutines of one group *)

Lemma create_langs (text : str) (target_langs : list str) :
  forall tasks md w,
    for_each target_langs (tasks, md)
      (fun target_lang '(tasks, task_metadata) =>
         t <- create (mkReq text target_lang true) ;;
         ret (tasks ++ [t], task_metadata ++ [(text, target_lang)])) w
    = (Ret (tasks ++ number (length (issued w)) (dataset_reqs target_langs [text]),
            md ++ map (fun tl => (text, tl)) target_langs),
       mkWorld (issued w ++ dataset_reqs target_langs [text]) (events w)).
Proof.
  unfold dataset_reqs. simpl. setoid_rewrite app_nil_r.
  induction target_langs as [|tl tls IH]; intros tasks md w; simpl.
  - unfold ret, number. simpl. rewrite !app_nil_r. now destruct w.
  - unfold bind at 1. unfold bind at 1. unfold create, ret at 1. simpl.
    rewrite IH. simpl. rewrite length_app. simpl.
    rewrite <- !app_assoc. simpl.
    replace (length (issued w) + 1) with (S (length (issued w))) by lia.
    reflexivity.
Qed.

Lemma create_dataset (target_langs batch_texts : list str) :
  forall tasks md w,
    for_each batch_texts (tasks, md)
      (fun text acc =>
         for_each target_langs acc
           (fun target_lang '(tasks, task_metadata) =>
              t <- create (mkReq text target_lang true) ;;
              ret (tasks ++ [t], task_metadata ++ [(text, target_lang)]))) w
    = (Ret (tasks ++ number (length (issued w)) (dataset_reqs target_langs batch_texts),
            md ++ map (fun rq => (text rq, target_lang rq))
                      (dataset_reqs target_langs batch_texts)),
       mkWorld (issued w ++ dataset_reqs target_langs batch_texts) (events w)).
Proof.
  induction batch_texts as [|text texts IH]; intros tasks md w.
  - simpl. unfold ret, number. simpl. rewrite !app_nil_r. now destruct w.
  - cbn [for_each]. unfold bind at 1. rewrite create_langs. rewrite IH. simpl.
    unfold dataset_reqs at 1 2 3. simpl. rewrite !app_nil_r.
    fold (dataset_reqs target_langs texts).
    rewrite number_app, map_app, length_app, length_map, map_map. simpl.
    rewrite <- !app_assoc. reflexivity.
Qed.

Lemma create_file (tl : str) (batch : list str) :
  forall tasks w,
    for_each batch tasks
      (fun line tasks =>
         if truthy (strip line)
         then t <- create (mkReq (strip line) tl true) ;; ret (tasks ++ [t])
         else ret tasks) w
    = (Ret (tasks ++ number (length (issued w)) (file_reqs tl batch)),
       mkWorld (issued w ++ file_reqs tl batch) (events w)).
Proof.
  induction batch as [|line batch IH]; intros tasks w.
  - simpl. unfold ret, number. simpl. rewrite !app_nil_r. now destruct w.
  - cbn [for_each]. unfold bind at 1. unfold file_reqs. simpl.
    fold (file_reqs tl batch).
    destruct (truthy (strip line)).
    + unfold bind at 1. unfold create, ret at 1. simpl. rewrite IH. simpl.
      rewrite length_app. simpl. rewrite <- !app_assoc. simpl.
      replace (length (issued w) + 1) with (S (length (issued w))) by lia.
      reflexivity.
    + unfold ret at 1. rewrite IH. reflexivity.
Qed.

(** ** [gather] *)

Lemma gather_eq (env : Env) (tasks : list Task) (w : World) :
  gather env tasks w
  = (match gather_exc env tasks with
     | Some e => Raise e
     | None => Ret (payloads env tasks)
     end,
     mkWorld (issued w) (events w ++ gather_events env tasks)).
Proof.
  unfold gather, gather_exc, gather_events, bind, emit.
  destruct (await_all env (completion_order env tasks)) as [evs [e|]]; simpl;
    unfold raise, ret; now rewrite <- app_assoc.
Qed.

Lemma insert_by_latency_perm (env : Env) (t : Task) (ts : list Task) :
  Permutation (t :: ts) (insert_by_latency env t ts).
Proof.
  induction ts as [|u ts IH]; simpl; [reflexivity|].
  destruct (latency env (fst u) <=? latency env (fst t)); [|reflexivity].
  rewrite perm_swap. now constructor.
Qed.

Lemma completion_order_perm (env : Env) (ts : list Task) :
  Permutation ts (completion_order env ts).
Proof.
  unfold completion_order.
  enough (forall acc, Permutation (acc ++ ts)
            (fold_left (fun acc t => insert_by_latency env t acc) ts acc)) as H
    by apply (H []).
  induction ts as [|t ts IH]; intros acc; simpl.
  - now rewrite app_nil_r.
  - rewrite <- IH. rewrite <- insert_by_latency_perm.
    symmetry. apply Permutation_middle.
Qed.

Lemma all_ok_perm (env : Env) (ts ts' : list Task) :
  Permutation ts ts' -> all_ok env ts = all_ok env ts'.
Proof.
  unfold all_ok. induction 1; simpl; try congruence.
  destruct (task_ok env x), (task_ok env y); reflexivity.
Qed.

Lemma all_ok_app (env : Env) (ts ts' : list Task) :
  all_ok env (ts ++ ts') = all_ok env ts && all_ok env ts'.
Proof. apply forallb_app. Qed.

(** When every coroutine returns, [gather] sees all of them complete. *)
Lemma await_all_ok (env : Env) (order : list Task) :
  all_ok env order = true ->
  await_all env order = (map (fun t => Done (fst t)) order, None).
Proof.
  induction order as [|[k rq] order IH]; simpl; [reflexivity|].
  unfold task_ok at 1. simpl. destruct (respond env k rq); simpl; [|discriminate].
  intros H. now rewrite (IH H).
Qed.

(** When one raises, [gather] raises the exception of one that raised. *)
Lemma await_all_fail (env : Env) (order : list Task) :
  all_ok env order = false ->
  exists e k rq,
    snd (await_all env order) = Some e /\ In (k, rq) order
    /\ respond env k rq = Failure e.
Proof.
  induction order as [|[k rq] order IH]; simpl; [discriminate|].
  unfold task_ok at 1. simpl.
  destruct (respond env k rq) as [r|e] eqn:E; simpl.
  - intros H. destruct (IH H) as (e & k' & rq' & Hs & Hin & Hr).
    exists e, k', rq'. destruct (await_all env order). simpl in *. auto.
  - intros _. exists e, k, rq. auto.
Qed.

(** Only completions are seen, and no more than there are coroutines. *)
Lemma await_all_events (env : Env) (order : list Task) :
  exists ds, fst (await_all env order) = map Done ds
             /\ length ds <= length order.
Proof.
  induction order as [|[k rq] order IH]; simpl.
  - exists []. simpl. auto.
  - destruct (respond env k rq).
    + destruct IH as (ds & E & L). destruct (await_all env order) as [evs x].
      simpl in *. exists (k :: ds). simpl. split; [now rewrite E | lia].
    + exists [k]. simpl. split; [reflexivity | lia].
Qed.

Lemma gather_exc_ok (env : Env) (tasks : list Task) :
  all_ok env tasks = true -> gather_exc env tasks = None.
Proof.
  intros H. unfold gather_exc.
  rewrite await_all_ok; [reflexivity|].
  now rewrite <- (all_ok_perm env (completion_order_perm env tasks)).
Qed.

Lemma gather_exc_fail (env : Env) (tasks : list Task) :
  all_ok env tasks = false ->
  exists e k rq, gather_exc env tasks = Some e /\ In (k, rq) tasks
                 /\ respond env k rq = Failure e.
Proof.
  intros H. unfold gather_exc.
  rewrite (all_ok_perm env (completion_order_perm env tasks)) in H.
  destruct (await_all_fail env _ H) as (e & k & rq & Hs & Hin & Hr).
  exists e, k, rq. repeat split; auto.
  eapply Permutation_in; [symmetry; apply completion_order_perm | exact Hin].
Qed.

Lemma gather_exc_none (env : Env) (tasks : list Task) :
  gather_exc env tasks = None -> all_ok env tasks = true.
Proof.
  intros H. destruct (all_ok env tasks) eqn:E; [reflexivity|].
  destruct (gather_exc_fail env tasks E) as (e & _ & _ & H' & _). congruence.
Qed.

(** The events of one [gather]: all the starts, then completions; all of
    them when [gather] returns. *)
Lemma gather_events_shape (env : Env) (tasks : list Task) :
  exists ds,
    gather_events env tasks = map Start (map fst tasks) ++ map Done ds
    /\ length ds <= length tasks
    /\ (gather_exc env tasks = None -> length ds = length tasks).
Proof.
  unfold gather_events.
  pose proof (completion_order_perm env tasks) as P.
  destruct (all_ok env tasks) eqn:E.
  - exists (map fst (completion_order env tasks)).
    rewrite await_all_ok by now rewrite <- (all_ok_perm env P).
    simpl. rewrite !map_map, length_map, <- (Permutation_length P). auto.
  - destruct (await_all_events env (completion_order env tasks)) as (ds & Hd & L).
    exists ds. rewrite Hd, map_map, (Permutation_length P). repeat split; auto.
    intros H. apply gather_exc_none in H. congruence.
Qed.

(** ** One group of [translate_dataset] *)

Lemma collect_dataset (l : list (str * str * Translation))
    (results : list (str * str * str)) (processed : nat) :
  fold_left
    (fun '(results, processed) '((text, target_lang), result) =>
       (results ++ [(text, target_lang, translated_text result)], S processed))
    l (results, processed)
  = (results ++ map (fun '((text, target_lang), result) =>
                       (text, target_lang, translated_text result)) l,
     processed + length l).
Proof.
  revert results processed.
  induction l as [|[[tx tl] r] l IH]; intros results processed; simpl.
  - now rewrite app_nil_r, Nat.add_0_r.
  - rewrite IH, <- app_assoc. simpl. f_equal. lia.
Qed.

Lemma payloads_ok (env : Env) (ts : list Task) :
  all_ok env ts = true ->
  map (fun '((text, target_lang), result) =>
         (text, target_lang, translated_text result))
      (zip (map (fun rq => (text rq, target_lang rq)) (map snd ts))
           (payloads env ts))
  = triples env ts
  /\ length (payloads env ts) = length ts.
Proof.
  induction ts as [|[k rq] ts IH]; simpl; [auto|].
  unfold task_ok at 1. simpl.
  destruct (respond env k rq) as [r|e]; simpl; [|discriminate].
  intros H. destruct (IH H) as [E L]. now rewrite E, L.
Qed.

Lemma triples_app (env : Env) (ts ts' : list Task) :
  triples env (ts ++ ts') = triples env ts ++ triples env ts'.
Proof. apply flat_map_app. Qed.

Lemma triples_length (env : Env) (ts : list Task) :
  all_ok env ts = true -> length (triples env ts) = length ts.
Proof.
  induction ts as [|[k rq] ts IH]; simpl; [auto|].
  unfold task_ok at 1. simpl.
  destruct (respond env k rq) as [r|e]; simpl; [|discriminate].
  intros H. now rewrite (IH H).
Qed.

(** What one group does, in one equation. *)
Lemma dataset_step_eq (client : Env) (target_langs batch_texts : list str)
    (results : list (str * str * str)) (processed : nat) (w : World) :
  let rqs := dataset_reqs target_langs batch_texts in
  let tasks := number (length (issued w)) rqs in
  dataset_step client target_langs batch_texts (results, processed) w
  = (match gather_exc client tasks with
     | Some e => Raise e
     | None => Ret (results ++ triples client tasks, processed + length tasks)
     end,
     mkWorld (issued w ++ rqs) (events w ++ gather_events client tasks)).
Proof.
  intros rqs tasks. unfold dataset_step.
  unfold bind at 1. rewrite create_dataset. simpl.
  fold rqs. fold tasks. unfold bind at 1. rewrite gather_eq. simpl.
  destruct (gather_exc client tasks) as [e|] eqn:E; [reflexivity|].
  unfold ret. f_equal. rewrite collect_dataset.
  apply gather_exc_none in E.
  assert (map snd tasks = rqs) as Hs by apply number_snd.
  rewrite <- Hs at 1.
  destruct (payloads_ok client tasks E) as [E1 E2].
  rewrite E1. unfold zip. rewrite length_combine, !length_map, E2.
  assert (length tasks = length rqs) as Hl by apply number_length.
  rewrite Hl, Nat.min_id. reflexivity.
Qed.

Lemma translate_dataset_chunks (service : Service) (texts target_langs : list str)
    (b : nat) (w : World) :
  0 < b ->
  translate_dataset service texts target_langs (Z.of_nat b) w
  = (acc <- for_each (chunks b texts) ([], 0)
              (dataset_step (service API_KEY) target_langs) ;;
     _ <- elapsed_over (length texts * length target_langs) ;;
     ret (fst acc)) w.
Proof.
  intros Hb. unfold translate_dataset.
  rewrite range_positive by assumption. unfold lift.
  unfold bind at 1. unfold ret at 1.
  apply bind_ext.
  - unfold chunks. rewrite !for_each_map. apply for_each_ext.
    intros q [results processed] w0 _. cbv beta.
    rewrite slice_nat by assumption. reflexivity.
  - intros [results processed] w'. reflexivity.
Qed.

(** * Traces *)

Lemma in_flight_from_app (tr tr' : list Event) :
  forall n, in_flight_from n (tr ++ tr') = in_flight_from (in_flight_from n tr) tr'.
Proof. induction tr as [|[k|k] tr IH]; intros n; simpl; auto. Qed.

Lemma in_flight_from_starts (ids : list nat) :
  forall n, in_flight_from n (map Start ids) = n + length ids.
Proof.
  induction ids as [|k ids IH]; intros n; simpl; [lia|]. rewrite IH. lia.
Qed.

Lemma in_flight_from_dones (ds : list nat) :
  forall n, in_flight_from n (map Done ds) = n - length ds.
Proof.
  induction ds as [|k ds IH]; intros n; simpl; [lia|]. rewrite IH. lia.
Qed.

Lemma peak_from_app (tr tr' : list Event) :
  forall n, peak_from n (tr ++ tr')
            = Nat.max (peak_from n tr) (peak_from (in_flight_from n tr) tr').
Proof.
  induction tr as [|[k|k] tr IH]; intros n; simpl.
  - assert (n <= peak_from n tr') by (destruct tr' as [|[k|k] tr']; simpl; lia).
    lia.
  - rewrite IH. lia.
  - rewrite IH. lia.
Qed.

Lemma peak_from_dones (ds : list nat) :
  forall n, peak_from n (map Done ds) = n.
Proof.
  induction ds as [|k ds IH]; intros n; simpl; [reflexivity|]. rewrite IH. lia.
Qed.

Lemma peak_from_starts (ids : list nat) :
  forall n, peak_from n (map Start ids) = n + length ids.
Proof.
  induction ids as [|k ids IH]; intros n; simpl; [lia|]. rewrite IH. lia.
Qed.

Lemma started_app (tr tr' : list Event) :
  started (tr ++ tr') = started tr ++ started tr'.
Proof.
  induction tr as [|[k|k] tr IH]; simpl; auto. now rewrite IH.
Qed.

Lemma started_starts (ids : list nat) : started (map Start ids) = ids.
Proof. induction ids as [|k ids IH]; simpl; auto. now rewrite IH. Qed.

Lemma started_dones (ds : list nat) : started (map Done ds) = [].
Proof. induction ds as [|k ds IH]; simpl; auto. Qed.

Lemma barrier_from_dones (ds : list nat) :
  forall n, barrier_from n (map Done ds) = true.
Proof.
  induction ds as [|k ds IH]; intros n; simpl; [reflexivity|].
  rewrite IH. destruct ds; reflexivity.
Qed.

Lemma barrier_from_group (ids ds : list nat) :
  forall n, barrier_from n (map Start ids ++ map Done ds) = true.
Proof.
  induction ids as [|k ids IH]; intros n; simpl; [apply barrier_from_dones|].
  apply IH.
Qed.

(** A trace that ends with nothing in flight can be continued by any
    trace that admits by groups. *)
Lemma barrier_from_app (tr tr' : list Event) :
  forall n,
    barrier_from n tr = true -> in_flight_from n tr = 0 ->
    barrier_from 0 tr' = true ->
    barrier_from n (tr ++ tr') = true.
Proof.
  induction tr as [|[k|k] tr IH]; intros n Hb Hq Hb'; simpl in *.
  - now subst n.
  - now apply IH.
  - apply andb_true_iff in Hb as [Hn Hb]. apply andb_true_iff. split.
    + destruct tr as [|[j|j] tr]; simpl in *; auto.
      rewrite Hq. destruct tr' as [|[j|j] tr']; reflexivity.
    + now apply IH.
Qed.

(** ** Invariants of the world *)

Lemma orderly_world0 (cap : nat) : orderly cap world0 /\ quiet world0.
Proof.
  split; [constructor|]; try reflexivity. unfold peak. simpl. lia.
Qed.

(** One more group of at most [cap] coroutines, started from a quiet
    world. *)
Lemma orderly_group (cap : nat) (env : Env) (w : World) (rqs : list TranslateReq) :
  orderly cap w -> quiet w -> length rqs <= cap ->
  let tasks := number (length (issued w)) rqs in
  let w' := mkWorld (issued w ++ rqs) (events w ++ gather_events env tasks) in
  orderly cap w' /\ (gather_exc env tasks = None -> quiet w').
Proof.
  intros [Hs Hp Hb] Hq Hl tasks w'.
  destruct (gather_events_shape env tasks) as (ds & E & Ld & Lall).
  assert (map fst tasks = seq (length (issued w)) (length rqs)) as Hids
    by apply number_fst.
  assert (length tasks = length rqs) as Hlen by apply number_length.
  unfold quiet, in_flight in *. subst w'. simpl. rewrite E, Hids.
  split; [constructor|]; simpl.
  - rewrite !started_app, started_starts, started_dones, Hs, app_nil_r.
    rewrite length_app. symmetry. apply seq_app.
  - unfold peak in *. rewrite !peak_from_app, Hq.
    rewrite peak_from_starts, in_flight_from_starts, peak_from_dones.
    rewrite length_seq. lia.
  - unfold barrier in *. apply barrier_from_app; auto.
    apply barrier_from_group.
  - intros H. specialize (Lall H).
    rewrite !in_flight_from_app, Hq, in_flight_from_starts,
      in_flight_from_dones, length_seq. lia.
Qed.

(** A loop invariant [I], and what holds when the loop raises. *)
Lemma for_each_inv {A S} (I : S -> World -> Prop) (Q : Exc -> World -> Prop)
    (xs : list A) (body : A -> S -> M S) :
  (forall x acc w, In x xs -> I acc w ->
     match body x acc w with
     | (Ret acc', w') => I acc' w'
     | (Raise e, w') => Q e w'
     end) ->
  forall acc w, I acc w ->
    match for_each xs acc body w with
    | (Ret acc', w') => I acc' w'
    | (Raise e, w') => Q e w'
    end.
Proof.
  induction xs as [|x xs IH]; intros Hbody acc w HI; simpl; [exact HI|].
  unfold bind. specialize (Hbody x acc w (or_introl eq_refl) HI) as Hx.
  destruct (body x acc w) as [[acc'|e] w']; [|exact Hx].
  apply IH; [|exact Hx]. intros; apply Hbody; auto. now right.
Qed.

(** What a loop has built when each round builds [g x]. *)
Lemma for_each_issued {A T} (g : A -> list TranslateReq)
    (xs : list A) (body : A -> T -> M T) :
  (forall x acc w, In x xs -> issued (snd (body x acc w)) = issued w ++ g x) ->
  forall acc w,
    match for_each xs acc body w with
    | (Ret _, w') => issued w' = issued w ++ flat_map g xs
    | (Raise _, w') =>
        exists n, n < length xs
                  /\ issued w' = issued w ++ flat_map g (firstn (S n) xs)
    end.
Proof.
  induction xs as [|x xs IH]; intros Hbody acc w; simpl.
  - now rewrite app_nil_r.
  - unfold bind. specialize (Hbody x acc w (or_introl eq_refl)) as Hx.
    destruct (body x acc w) as [[acc'|e] w']; simpl in Hx.
    + specialize (IH (fun y a v H => Hbody y a v (or_intror H)) acc' w').
      destruct (for_each xs acc' body w') as [[acc''|e] w''].
      * now rewrite IH, Hx, <- app_assoc.
      * destruct IH as (n & Hn & E). exists (S n). split; [lia|].
        rewrite E, Hx, <- app_assoc. reflexivity.
    + exists 0. split; [lia|]. simpl. now rewrite app_nil_r.
Qed.

(** ** Numbered requests, position by position *)

Lemma number_in (n k : nat) (rq : TranslateReq) (rqs : list TranslateReq) :
  In (k, rq) (number n rqs) -> n <= k /\ nth_error rqs (k - n) = Some rq.
Proof.
  unfold number. revert n; induction rqs as [|rq' rqs IH]; intros n; simpl;
    [tauto|].
  intros [H|H].
  - inversion H; subst. rewrite Nat.sub_diag. auto.
  - apply IH in H as [Hle Hn]. split; [lia|].
    replace (k - n) with (S (k - S n)) by lia. exact Hn.
Qed.

Lemma number_nth (n i : nat) (rq : TranslateReq) (rqs : list TranslateReq) :
  nth_error rqs i = Some rq -> In (n + i, rq) (number n rqs).
Proof.
  unfold number. revert n i; induction rqs as [|rq' rqs IH]; intros n i; simpl.
  - destruct i; discriminate.
  - destruct i as [|i]; simpl.
    + intros H; inversion H; subst. left. f_equal. lia.
    + intros H. right. replace (n + S i) with (S n + i) by lia. now apply IH.
Qed.

Lemma all_ok_in (env : Env) (ts : list Task) (k : nat) (rq : TranslateReq) :
  all_ok env ts = true -> In (k, rq) ts ->
  exists r, respond env k rq = Success r.
Proof.
  unfold all_ok. rewrite forallb_forall. intros H Hin.
  specialize (H _ Hin). unfold task_ok in H. simpl in H.
  destruct (respond env k rq) as [r|e]; [now exists r | discriminate].
Qed.

(** Entry [i] of the recorded triples is the result of coroutine [n + i]. *)
Lemma triples_nth (env : Env) (rqs : list TranslateReq) :
  forall n i rq,
    all_ok env (number n rqs) = true ->
    nth_error rqs i = Some rq ->
    exists r, respond env (n + i) rq = Success r
              /\ nth_error (triples env (number n rqs)) i = Some (triple rq r).
Proof.
  unfold number.
  induction rqs as [|rq' rqs IH]; intros n i rq; simpl.
  - destruct i; discriminate.
  - unfold task_ok at 1. simpl.
    destruct (respond env n rq') as [r'|e] eqn:E; simpl; [|discriminate].
    intros Hok. destruct i as [|i]; simpl.
    + intros H; inversion H; subst. exists r'.
      rewrite Nat.add_0_r. auto.
    + intros H. replace (n + S i) with (S n + i) by lia. now apply IH.
Qed.

Lemma dataset_reqs_length (target_langs texts : list str) :
  length (dataset_reqs target_langs texts) = length texts * length target_langs.
Proof.
  unfold dataset_reqs. induction texts as [|t texts IH]; simpl; [reflexivity|].
  now rewrite length_app, length_map, IH.
Qed.

Lemma dataset_reqs_concat (target_langs : list str) (cs : list (list str)) :
  flat_map (dataset_reqs target_langs) cs = dataset_reqs target_langs (concat cs).
Proof.
  unfold dataset_reqs. induction cs as [|c cs IH]; simpl; [reflexivity|].
  now rewrite flat_map_app, IH.
Qed.

(** What one [gather] on freshly built coroutines leaves behind. *)
Lemma gather_group (client : Env) (cap : nat) (w : World)
    (rqs : list TranslateReq) :
  all_ok client (number 0 (issued w)) = true ->
  orderly cap w -> quiet w -> length rqs <= cap ->
  let tasks := number (length (issued w)) rqs in
  let w' := mkWorld (issued w ++ rqs) (events w ++ gather_events client tasks) in
  match gather_exc client tasks with
  | Some e => raised_by_call client cap e w'
  | None => all_ok client (number 0 (issued w')) = true
            /\ all_ok client tasks = true /\ orderly cap w' /\ quiet w'
  end.
Proof.
  intros Hok Hord Hq Hcap tasks w'.
  destruct (orderly_group client rqs Hord Hq Hcap) as [Hord' Hq'].
  fold tasks in Hord', Hq'. fold w' in Hord', Hq'.
  destruct (gather_exc client tasks) as [e|] eqn:E.
  - split; [|exact Hord']. simpl.
    destruct (all_ok client tasks) eqn:Eok.
    + rewrite gather_exc_ok in E by assumption. discriminate.
    + destruct (gather_exc_fail client tasks Eok) as (e' & k & rq & E' & Hin & Hr).
      assert (e' = e) by congruence. subst e'.
      apply number_in in Hin as [Hle Hn].
      exists k, rq. split; [|exact Hr].
      rewrite nth_error_app2 by assumption. exact Hn.
  - apply gather_exc_none in E as Eok. repeat split; auto; try apply Hord'.
    simpl. rewrite number_app, all_ok_app, Hok. exact Eok.
Qed.

(** ** The loop of [translate_dataset] *)

Section DatasetLoop.
Variable client : Env.
Variable target_langs : list str.
Variable b : nat.

Let cap : nat := b * length target_langs.

Lemma dataset_step_inv (batch_texts : list str)
    (acc : list (str * str * str) * nat) (w : World) :
  length batch_texts <= b ->
  dataset_inv client cap acc w ->
  match dataset_step client target_langs batch_texts acc w with
  | (Ret acc', w') => dataset_inv client cap acc' w'
  | (Raise e, w') => raised_by_call client cap e w'
  end.
Proof.
  intros Hlen (Hok & Hres & Hproc & Hord & Hq).
  destruct acc as [results processed]. simpl in Hres, Hproc.
  rewrite dataset_step_eq. cbv zeta.
  set (rqs := dataset_reqs target_langs batch_texts).
  set (tasks := number (length (issued w)) rqs).
  assert (length rqs <= cap) as Hcap.
  { unfold rqs, cap. rewrite dataset_reqs_length. nia. }
  pose proof (gather_group client rqs Hok Hord Hq Hcap) as G.
  cbv zeta in G. fold tasks in G.
  destruct (gather_exc client tasks) as [e|]; [exact G|].
  destruct G as (Hok' & Hok_tasks & Hord' & Hq').
  repeat split; simpl; auto; try apply Hord'.
  - rewrite number_app, triples_app, Hres. reflexivity.
  - rewrite length_app, Hproc. unfold tasks. now rewrite number_length.
Qed.

Lemma dataset_loop_inv (cs : list (list str))
    (acc : list (str * str * str) * nat) (w : World) :
  (forall c, In c cs -> length c <= b) ->
  dataset_inv client cap acc w ->
  match for_each cs acc (dataset_step client target_langs) w with
  | (Ret acc', w') => dataset_inv client cap acc' w'
  | (Raise e, w') => raised_by_call client cap e w'
  end.
Proof.
  intros Hcs. apply for_each_inv.
  intros c acc0 w0 Hin. apply dataset_step_inv. now apply Hcs.
Qed.

Lemma dataset_loop_issued (cs : list (list str))
    (acc : list (str * str * str) * nat) (w : World) :
  match for_each cs acc (dataset_step client target_langs) w with
  | (Ret _, w') => issued w' = issued w ++ dataset_reqs target_langs (concat cs)
  | (Raise _, w') =>
      exists n, n < length cs
                /\ issued w' = issued w
                     ++ dataset_reqs target_langs (concat (firstn (S n) cs))
  end.
Proof.
  pose proof (@for_each_issued _ _ (dataset_reqs target_langs) cs
                (dataset_step client target_langs)) as H.
  specialize (H (fun c a v _ =>
    match a with (r, p) =>
      f_equal (fun x => issued (snd x)) (dataset_step_eq client target_langs c r p v)
    end) acc w).
  destruct (for_each cs acc (dataset_step client target_langs) w) as [[a|e] w'].
  - now rewrite <- dataset_reqs_concat.
  - destruct H as (n & Hn & E). exists n. split; [exact Hn|].
    now rewrite <- dataset_reqs_concat.
Qed.

(** When every coroutine of every group returns, so does the loop. *)
Lemma dataset_loop_returns (cs : list (list str)) :
  forall acc w,
    all_ok client (number (length (issued w))
                     (dataset_reqs target_langs (concat cs))) = true ->
    exists acc' w',
      for_each cs acc (dataset_step client target_langs) w = (Ret acc', w').
Proof.
  induction cs as [|c cs IH]; intros [results processed] w Hok;
    cbn [for_each].
  - unfold ret. eauto.
  - unfold bind. rewrite dataset_step_eq. cbv zeta.
    rewrite <- dataset_reqs_concat in Hok. simpl in Hok.
    rewrite number_app, all_ok_app in Hok.
    apply andb_true_iff in Hok as [Hc Hrest].
    rewrite (gather_exc_ok _ _ Hc).
    apply IH. simpl. rewrite length_app, dataset_reqs_concat in *. exact Hrest.
Qed.
End DatasetLoop.

Lemma firstn_seq_le (m n start : nat) :
  m <= n -> firstn m (seq start n) = seq start m.
Proof.
  revert n start; induction m as [|m IH]; intros n start H; [reflexivity|].
  destruct n as [|n]; [lia|]. simpl. f_equal. apply IH. lia.
Qed.

Lemma concat_firstn_chunks {A} (b m : nat) (l : list A) :
  m <= length (chunks b l) -> concat (firstn m (chunks b l)) = firstn (m * b) l.
Proof.
  unfold chunks. rewrite length_map, length_seq. intros H.
  rewrite firstn_map, firstn_seq_le by assumption.
  apply concat_chunks_upto.
Qed.

(** ** [translate_dataset] as a whole *)


Lemma translate_dataset_negative (service : Service)
    (texts target_langs : list str) (batch_size : Z) (w : World) :
  (batch_size < 0)%Z ->
  translate_dataset service texts target_langs batch_size w
  = (if length texts * length target_langs =? 0
     then Raise ZeroDivisionError else Ret [], w).
Proof.
  intros H. unfold translate_dataset. rewrite range_negative by assumption.
  unfold lift, bind, ret, elapsed_over. simpl.
  destruct (length texts * length target_langs =? 0); reflexivity.
Qed.

(** What a run with a positive [batch_size] ends in. *)
Lemma translate_dataset_positive (service : Service)
    (texts target_langs : list str) (b : nat) :
  0 < b ->
  let client := service API_KEY in
  let cap := b * length target_langs in
  match translate_dataset service texts target_langs (Z.of_nat b) world0 with
  | (Ret rs, w) =>
      issued w = dataset_reqs target_langs texts
      /\ all_ok client (number 0 (issued w)) = true
      /\ rs = triples client (number 0 (issued w))
      /\ length texts * length target_langs <> 0
      /\ orderly cap w /\ quiet w
  | (Raise e, w) =>
      orderly cap w
      /\ ((e = ZeroDivisionError /\ length texts * length target_langs = 0
           /\ issued w = [])
          \/ ((exists k rq, nth_error (issued w) k = Some rq
                            /\ respond client k rq = Failure e)
              /\ exists m, issued w = dataset_reqs target_langs (firstn m texts)))
  end.
Proof.
  intros Hb client cap. rewrite translate_dataset_chunks by assumption.
  fold client. unfold bind at 1.
  assert (dataset_inv client (b * length target_langs) ([], 0) world0) as H0.
  { unfold dataset_inv. simpl. repeat split; try reflexivity;
      apply (orderly_world0 (b * length target_langs)). }
  pose proof (@dataset_loop_inv client target_langs b (chunks b texts) ([], 0)
                world0 (@chunks_length _ b texts) H0) as HI.
  pose proof (dataset_loop_issued client target_langs (chunks b texts) ([], 0) world0)
    as Hiss.
  destruct (for_each (chunks b texts) ([], 0) (dataset_step client target_langs) world0)
    as [[[results processed]|e] w].
  - destruct HI as (Hok & Hres & Hproc & Hord & Hq). simpl in *.
    rewrite concat_chunks in Hiss by assumption.
    unfold bind, elapsed_over.
    destruct (Nat.eqb_spec (length texts * length target_langs) 0) as [Ez|Ez];
      simpl.
    + split; [exact Hord|]. left. repeat split; auto.
      rewrite Hiss. apply length_zero_iff_nil.
      now rewrite dataset_reqs_length.
    + unfold ret. repeat split; auto; apply Hord.
  - destruct HI as [Hcall Hord]. split; [exact Hord|]. right. split; [exact Hcall|].
    destruct Hiss as (n & Hn & E).
    rewrite concat_firstn_chunks in E by lia. simpl in E. eauto.
Qed.

Lemma dataset_reqs_prefix (target_langs texts : list str) (m k : nat)
    (rq : TranslateReq) :
  nth_error (dataset_reqs target_langs (firstn m texts)) k = Some rq ->
  nth_error (dataset_reqs target_langs texts) k = Some rq.
Proof.
  intros H. rewrite <- (firstn_skipn m texts) at 1.
  unfold dataset_reqs in *. rewrite flat_map_app.
  rewrite nth_error_app1; [exact H|].
  apply nth_error_Some. congruence.
Qed.

(** When every coroutine returns and there is something to translate,
    [translate_dataset] returns, and what it returns is read off the
    coroutines in the order they were built. *)
Lemma translate_dataset_returns (service : Service)
    (texts target_langs : list str) (b : nat) :
  0 < b ->
  length texts * length target_langs <> 0 ->
  let client := service API_KEY in
  let tasks := number 0 (dataset_reqs target_langs texts) in
  all_ok client tasks = true ->
  exists w,
    translate_dataset service texts target_langs (Z.of_nat b) world0
    = (Ret (triples client tasks), w)
    /\ issued w = dataset_reqs target_langs texts.
Proof.
  intros Hb Hn client tasks Hok.
  pose proof (translate_dataset_positive service texts target_langs Hb) as H.
  cbv zeta in H. fold client in H.
  destruct (translate_dataset service texts target_langs (Z.of_nat b) world0)
    as [[rs|e] w].
  - destruct H as (Hiss & _ & Hrs & _). exists w. rewrite Hrs, Hiss. auto.
  - destruct H as [_ [(_ & Hz & _)|[(k & rq & Hk & Hr) (m & Hm)]]]; [contradiction|].
    rewrite Hm in Hk. apply dataset_reqs_prefix in Hk.
    apply (number_nth 0) in Hk.
    destruct (@all_ok_in client _ _ _ Hok Hk) as [r Hr']. simpl in Hr'.
    congruence.
Qed.

(** ** One group of [translate_file] *)

Lemma collect_file (results : list Translation) (translated_lines : list str) :
  fold_left
    (fun translated_lines result =>
       translated_lines ++ [add_newline (translated_text result)])
    results translated_lines
  = translated_lines ++ map (fun r => add_newline (translated_text r)) results.
Proof.
  revert translated_lines.
  induction results as [|r results IH]; intros translated_lines; simpl.
  - now rewrite app_nil_r.
  - now rewrite IH, <- app_assoc.
Qed.

Lemma payloads_lines (env : Env) (ts : list Task) :
  map (fun r => add_newline (translated_text r)) (payloads env ts)
  = out_lines env ts.
Proof.
  induction ts as [|[k rq] ts IH]; simpl; [reflexivity|].
  destruct (respond env k rq); simpl; now rewrite IH.
Qed.

Lemma out_lines_app (env : Env) (ts ts' : list Task) :
  out_lines env (ts ++ ts') = out_lines env ts ++ out_lines env ts'.
Proof. apply flat_map_app. Qed.

Lemma file_step_eq (client : Env) (target_lang : str) (batch : list str)
    (translated_lines : list str) (w : World) :
  let rqs := file_reqs target_lang batch in
  let tasks := number (length (issued w)) rqs in
  file_step client target_lang batch translated_lines w
  = (match gather_exc client tasks with
     | Some e => Raise e
     | None => Ret (translated_lines ++ out_lines client tasks)
     end,
     mkWorld (issued w ++ rqs) (events w ++ gather_events client tasks)).
Proof.
  intros rqs tasks. unfold file_step.
  unfold bind at 1. rewrite create_file. simpl.
  fold rqs. fold tasks. unfold bind at 1. rewrite gather_eq. simpl.
  destruct (gather_exc client tasks) as [e|]; [reflexivity|].
  unfold ret. now rewrite collect_file, payloads_lines.
Qed.

Lemma translate_file_chunks (client : Env) (lines : list str)
    (target_lang : str) (b : nat) (w : World) :
  0 < b ->
  translate_file client lines target_lang (Z.of_nat b) w
  = for_each (chunks b lines) [] (file_step client target_lang) w.
Proof.
  intros Hb. unfold translate_file.
  rewrite range_positive by assumption. unfold lift.
  unfold bind at 1. unfold ret at 1.
  transitivity (bind (for_each (chunks b lines) [] (file_step client target_lang))
                     (fun translated_lines => ret translated_lines) w).
  - apply bind_ext; [|reflexivity].
    unfold chunks. rewrite !for_each_map. apply for_each_ext.
    intros q translated_lines w0 _. cbv beta.
    rewrite slice_nat by assumption. reflexivity.
  - unfold bind, ret.
    destruct (for_each _ _ _ w) as [[a|e] w']; reflexivity.
Qed.

Lemma file_reqs_length (tl : str) (lines : list str) :
  length (file_reqs tl lines) <= length lines.
Proof.
  unfold file_reqs. induction lines as [|l lines IH]; simpl; [lia|].
  rewrite length_app. destruct (truthy (strip l)); simpl; lia.
Qed.

Lemma file_reqs_concat (tl : str) (cs : list (list str)) :
  flat_map (file_reqs tl) cs = file_reqs tl (concat cs).
Proof.
  unfold file_reqs. induction cs as [|c cs IH]; simpl; [reflexivity|].
  now rewrite flat_map_app, IH.
Qed.

(** ** The loop of [translate_file] *)

Section FileLoop.
Variable client : Env.
Variable target_lang : str.
Variable b : nat.

Lemma file_step_inv (batch translated_lines : list str) (w : World) :
  length batch <= b ->
  file_inv client b translated_lines w ->
  match file_step client target_lang batch translated_lines w with
  | (Ret acc', w') => file_inv client b acc' w'
  | (Raise e, w') => raised_by_call client b e w'
  end.
Proof.
  intros Hlen (Hok & Hres & Hord & Hq).
  rewrite file_step_eq. cbv zeta.
  set (rqs := file_reqs target_lang batch).
  set (tasks := number (length (issued w)) rqs).
  assert (length rqs <= b) as Hcap.
  { pose proof (file_reqs_length target_lang batch). fold rqs in H. lia. }
  pose proof (gather_group client rqs Hok Hord Hq Hcap) as G.
  cbv zeta in G. fold tasks in G.
  destruct (gather_exc client tasks) as [e|]; [exact G|].
  destruct G as (Hok' & Hok_tasks & Hord' & Hq').
  repeat split; simpl; auto; try apply Hord'.
  rewrite number_app, out_lines_app, Hres. reflexivity.
Qed.

Lemma file_loop_inv (cs : list (list str)) (acc : list str) (w : World) :
  (forall c, In c cs -> length c <= b) ->
  file_inv client b acc w ->
  match for_each cs acc (file_step client target_lang) w with
  | (Ret acc', w') => file_inv client b acc' w'
  | (Raise e, w') => raised_by_call client b e w'
  end.
Proof.
  intros Hcs. apply for_each_inv.
  intros c acc0 w0 Hin. apply file_step_inv. now apply Hcs.
Qed.

Lemma file_loop_issued (cs : list (list str)) (acc : list str) (w : World) :
  match for_each cs acc (file_step client target_lang) w with
  | (Ret _, w') => issued w' = issued w ++ file_reqs target_lang (concat cs)
  | (Raise _, w') =>
      exists n, n < length cs
                /\ issued w' = issued w
                     ++ file_reqs target_lang (concat (firstn (S n) cs))
  end.
Proof.
  pose proof (@for_each_issued _ _ (file_reqs target_lang) cs
                (file_step client target_lang)) as H.
  specialize (H (fun c a v _ =>
    f_equal (fun x => issued (snd x)) (file_step_eq client target_lang c a v))
    acc w).
  destruct (for_each cs acc (file_step client target_lang) w) as [[a|e] w'].
  - now rewrite <- file_reqs_concat.
  - destruct H as (n & Hn & E). exists n. split; [exact Hn|].
    now rewrite <- file_reqs_concat.
Qed.
End FileLoop.

(** ** [translate_file] as a whole *)

Lemma translate_file_zero (client : Env) (lines : list str) (target_lang : str)
    (w : World) :
  translate_file client lines target_lang 0 w = (Raise ValueError, w).
Proof. reflexivity. Qed.

Lemma translate_file_negative (client : Env) (lines : list str)
    (target_lang : str) (batch_size : Z) (w : World) :
  (batch_size < 0)%Z ->
  translate_file client lines target_lang batch_size w = (Ret [], w).
Proof.
  intros H. unfold translate_file. rewrite range_negative by assumption.
  reflexivity.
Qed.

(** What a run with a positive [batch_size] ends in. *)
Lemma translate_file_positive (client : Env) (lines : list str)
    (target_lang : str) (b : nat) :
  0 < b ->
  match translate_file client lines target_lang (Z.of_nat b) world0 with
  | (Ret out, w) =>
      issued w = file_reqs target_lang lines
      /\ all_ok client (number 0 (issued w)) = true
      /\ out = out_lines client (number 0 (issued w))
      /\ orderly b w /\ quiet w
  | (Raise e, w) =>
      raised_by_call client b e w
      /\ exists m, issued w = file_reqs target_lang (firstn m lines)
  end.
Proof.
  intros Hb. rewrite translate_file_chunks by assumption.
  assert (file_inv client b [] world0) as H0.
  { unfold file_inv. simpl. repeat split; try reflexivity;
      apply (orderly_world0 b). }
  pose proof (@file_loop_inv client target_lang b (chunks b lines) [] world0
                (@chunks_length _ b lines) H0) as HI.
  pose proof (file_loop_issued client target_lang (chunks b lines) [] world0)
    as Hiss.
  destruct (for_each (chunks b lines) [] (file_step client target_lang) world0)
    as [[out|e] w].
  - destruct HI as (Hok & Hres & Hord & Hq). simpl in Hiss.
    rewrite concat_chunks in Hiss by assumption. auto.
  - split; [exact HI|]. destruct Hiss as (n & Hn & E).
    rewrite concat_firstn_chunks in E by lia. simpl in E. eauto.
Qed.

Lemma file_reqs_prefix (tl : str) (lines : list str) (m k : nat)
    (rq : TranslateReq) :
  nth_error (file_reqs tl (firstn m lines)) k = Some rq ->
  nth_error (file_reqs tl lines) k = Some rq.
Proof.
  intros H. rewrite <- (firstn_skipn m lines) at 1.
  unfold file_reqs in *. rewrite flat_map_app.
  rewrite nth_error_app1; [exact H|].
  apply nth_error_Some. congruence.
Qed.

(** When every coroutine returns, [translate_file] returns. *)
Lemma translate_file_returns (client : Env) (lines : list str)
    (target_lang : str) (b : nat) :
  0 < b ->
  let tasks := number 0 (file_reqs target_lang lines) in
  all_ok client tasks = true ->
  exists w,
    translate_file client lines target_lang (Z.of_nat b) world0
    = (Ret (out_lines client tasks), w)
    /\ issued w = file_reqs target_lang lines.
Proof.
  intros Hb tasks Hok.
  pose proof (translate_file_positive client lines target_lang Hb) as H.
  destruct (translate_file client lines target_lang (Z.of_nat b) world0)
    as [[out|e] w].
  - destruct H as (Hiss & _ & Hout & _). exists w. rewrite Hout, Hiss. auto.
  - destruct H as [[(k & rq & Hk & Hr) _] (m & Hm)].
    rewrite Hm in Hk. apply file_reqs_prefix in Hk.
    apply (number_nth 0) in Hk.
    destruct (@all_ok_in client _ _ _ Hok Hk) as [r Hr']. simpl in Hr'.
    congruence.
Qed.

(** ** [batch_translations] *)

Lemma create_texts (tl : str) (texts : list str) :
  forall tasks w,
    for_each texts tasks
      (fun text tasks => t <- create (mkReq text tl true) ;; ret (tasks ++ [t])) w
    = (Ret (tasks ++ number (length (issued w))
                       (map (fun text => mkReq text tl true) texts)),
       mkWorld (issued w ++ map (fun text => mkReq text tl true) texts) (events w)).
Proof.
  induction texts as [|text texts IH]; intros tasks w.
  - simpl. unfold ret, number. simpl. rewrite !app_nil_r. now destruct w.
  - cbn [for_each]. unfold bind at 1. unfold bind at 1.
    unfold create, ret at 1. simpl. rewrite IH. simpl.
    rewrite length_app. simpl. rewrite <- !app_assoc. simpl.
    replace (length (issued w) + 1) with (S (length (issued w))) by lia.
    reflexivity.
Qed.

Lemma payloads_pairs (env : Env) (tl : str) (texts : list str) :
  forall n,
    all_ok env (number n (map (fun text => mkReq text tl true) texts)) = true ->
    map (fun '(original, result) => (original, translated_text result))
        (zip texts (payloads env (number n (map (fun text => mkReq text tl true) texts))))
    = pairs env (number n (map (fun text => mkReq text tl true) texts)).
Proof.
  unfold number. induction texts as [|text texts IH]; intros n; simpl;
    [reflexivity|].
  unfold task_ok at 1. simpl.
  destruct (respond env n (mkReq text tl true)); simpl; [|discriminate].
  intros H. now rewrite (IH _ H).
Qed.

Lemma gather_texts_eq (client : Env) (tl : str) (texts : list str) (w : World) :
  let rqs := map (fun text => mkReq text tl true) texts in
  let tasks := number (length (issued w)) rqs in
  (tasks <-
     for_each texts [] (fun text tasks =>
       t <- create (mkReq text tl true) ;; ret (tasks ++ [t])) ;;
   results <- gather client tasks ;;
   ret (map (fun '(original, result) => (original, translated_text result))
            (zip texts results))) w
  = (match gather_exc client tasks with
     | Some e => Raise e
     | None => Ret (pairs client tasks)
     end,
     mkWorld (issued w ++ rqs) (events w ++ gather_events client tasks)).
Proof.
  intros rqs tasks.
  unfold bind at 1. rewrite create_texts. simpl.
  fold rqs. fold tasks. unfold bind at 1. rewrite gather_eq. simpl.
  destruct (gather_exc client tasks) as [e|] eqn:E; [reflexivity|].
  unfold ret. apply gather_exc_none in E.
  unfold tasks, rqs. now rewrite payloads_pairs.
Qed.

Lemma batch_translations_on_eq (service : Service) (texts : list str) :
  let client := service (of_string "sk-your-api-key"%string) in
  let rqs := map (fun text => mkReq text (of_string "hin_Deva"%string) true) texts in
  let tasks := number 0 rqs in
  batch_translations_on service texts world0
  = (match gather_exc client tasks with
     | Some e => Raise e
     | None => Ret (pairs client tasks)
     end,
     mkWorld rqs (gather_events client tasks)).
Proof.
  intros client rqs tasks. unfold batch_translations_on.
  apply (gather_texts_eq client (of_string "hin_Deva"%string) texts world0).
Qed.



Lemma out_lines_nth (env : Env) (rqs : list TranslateReq) :
  forall n i rq,
    all_ok env (number n rqs) = true ->
    nth_error rqs i = Some rq ->
    exists r, respond env (n + i) rq = Success r
              /\ nth_error (out_lines env (number n rqs)) i
                 = Some (add_newline (translated_text r)).
Proof.
  unfold number.
  induction rqs as [|rq' rqs IH]; intros n i rq; simpl.
  - destruct i; discriminate.
  - unfold task_ok at 1. simpl.
    destruct (respond env n rq') as [r'|e] eqn:E; simpl; [|discriminate].
    intros Hok. destruct i as [|i]; simpl.
    + intros H; inversion H; subst. exists r'.
      rewrite Nat.add_0_r. auto.
    + intros H. replace (n + S i) with (S n + i) by lia. now apply IH.
Qed.

Lemma out_lines_length (env : Env) (ts : list Task) :
  all_ok env ts = true -> length (out_lines env ts) = length ts.
Proof.
  induction ts as [|[k rq] ts IH]; simpl; [auto|].
  unfold task_ok at 1. simpl.
  destruct (respond env k rq) as [r|e]; simpl; [|discriminate].
  intros H. now rewrite (IH H).
Qed.

(** Every coroutine returns as soon as each one, at its position, does. *)
Lemma all_ok_pointwise (env : Env) (rqs : list TranslateReq) :
  forall n,
    (forall i rq, nth_error rqs i = Some rq ->
                  exists r, respond env (n + i) rq = Success r) ->
    all_ok env (number n rqs) = true.
Proof.
  unfold number. induction rqs as [|rq rqs IH]; intros n H; simpl; [reflexivity|].
  unfold task_ok at 1. simpl.
  destruct (H 0 rq eq_refl) as [r Hr]. rewrite Nat.add_0_r in Hr. rewrite Hr.
  simpl. apply IH. intros i rq' Hi.
  replace (S n + i) with (n + S i) by lia. now apply H.
Qed.

(** Entry [i] of what [gather] returns is the result of its [i]-th
    argument. *)
Lemma payloads_nth (env : Env) (ts : list Task) :
  all_ok env ts = true ->
  length (payloads env ts) = length ts
  /\ forall i k rq, nth_error ts i = Some (k, rq) ->
       exists r, respond env k rq = Success r
                 /\ nth_error (payloads env ts) i = Some r.
Proof.
  induction ts as [|[k' rq'] ts IH]; simpl.
  - intros _. split; [reflexivity|]. intros [|i] k rq H; discriminate.
  - unfold task_ok at 1. simpl.
    destruct (respond env k' rq') as [r'|e] eqn:E; simpl; [|discriminate].
    intros Hok. destruct (IH Hok) as [L N]. split; [now rewrite L|].
    intros [|i] k rq H; simpl in *.
    + inversion H; subst. eauto.
    + now apply N.
Qed.

(** * Properties of the batch helpers *)

(** ** Results and requests *)


(** The empty batch: [gather] on no coroutine returns the empty list. *)
Example gather_nothing (env : Env) : gather env [] world0 = (Ret [], world0).
Proof. reflexivity. Qed.


(** ** A call that raises *)




(** ** The concurrency limit *)

(** [translate_file] never has more than [batch_size] calls in flight. *)
Lemma translate_file_cap (client : Env) (lines : list str) (target_lang : str)
    (b : nat) :
  0 < b ->
  peak (events (snd (translate_file client lines target_lang (Z.of_nat b) world0)))
  <= b.
Proof.
  intros Hb.
  pose proof (translate_file_positive client lines target_lang Hb) as H.
  destruct (translate_file client lines target_lang (Z.of_nat b) world0)
    as [[out|e] w]; simpl.
  - destruct H as (_ & _ & _ & Hord & _). apply Hord.
  - destruct H as [[_ Hord] _]. apply Hord.
Qed.

(** [translate_dataset] never has more than [batch_size] times the number
    of target languages in flight. *)
Lemma translate_dataset_cap (service : Service) (texts target_langs : list str)
    (b : nat) :
  0 < b ->
  peak (events (snd (translate_dataset service texts target_langs
                       (Z.of_nat b) world0)))
  <= b * length target_langs.
Proof.
  intros Hb.
  pose proof (translate_dataset_positive service texts target_langs Hb) as H.
  cbv zeta in H.
  destruct (translate_dataset service texts target_langs (Z.of_nat b) world0)
    as [[rs|e] w]; simpl.
  - destruct H as (_ & _ & _ & _ & Hord & _). apply Hord.
  - destruct H as [Hord _]. apply Hord.
Qed.

(** The call of [main]: five texts, two target languages and
    [batch_size=5] put ten calls in flight. *)
Example main_dataset_in_flight :
  let sample_texts := map of_string
    ["Hello, world!"; "Good morning"; "Thank you"; "How are you?";
     "Nice to meet you"]%string in
  let sample_langs := map of_string ["hin_Deva"; "tam_Taml"]%string in
  peak (events (snd (translate_dataset demo_service sample_texts sample_langs
                       5 world0))) = 10.
Proof. vm_compute. reflexivity. Qed.

(** C3 fails on [translate_dataset]: with one text, two target languages
    and [batch_size = 1], two calls are in flight at once, whatever the
    service does. *)
Theorem C3_dataset_exceeds_limit (service : Service) (t l1 l2 : str) :
  peak (events (snd (translate_dataset service [t] [l1; l2] 1 world0))) = 2.
Proof.
  change 1%Z with (Z.of_nat 1).
  rewrite translate_dataset_chunks by lia.
  change (chunks 1 [t]) with [[t]]. cbn [for_each].
  unfold bind at 1. unfold bind at 1. rewrite dataset_step_eq. cbv zeta.
  set (tasks := number (length (issued world0)) (dataset_reqs [l1; l2] [t])).
  assert (peak (events world0 ++ gather_events (service API_KEY) tasks) = 2) as P.
  { destruct (gather_events_shape (service API_KEY) tasks) as (ds & E & _).
    rewrite E. simpl. unfold peak. simpl.
    rewrite peak_from_dones. reflexivity. }
  destruct (gather_exc (service API_KEY) tasks); simpl; exact P.
Qed.

(** ** An invalid credential *)

(** C4, as stated, fails: with a key the service rejects, the batch
    dispatch raises [AuthenticationError] and returns no batch result. *)
Lemma C4_counterexample :
  let run := translate_dataset strict_service
               (map of_string ["Hello"; "Good morning"]%string)
               (map of_string ["hin_Deva"]%string) 10 world0 in
  credential_rejected strict_service API_KEY
  /\ ~ returns run
  /\ fst run = Raise AuthenticationError.
Proof.
  cbv zeta. split; [intros k rq; reflexivity|].
  split; [|vm_compute; reflexivity].
  intros (rs & w & H). vm_compute in H. discriminate.
Qed.

(** C4, amended: with a key the service rejects, every call raises
    [AuthenticationError], and a batch dispatch with something to translate
    raises [AuthenticationError] to its caller instead of returning a batch
    result. *)
Theorem C4_invalid_credential_raises (service : Service)
    (texts target_langs : list str) (b : nat) :
  credential_rejected service API_KEY ->
  0 < b -> texts <> [] -> target_langs <> [] ->
  exists w,
    translate_dataset service texts target_langs (Z.of_nat b) world0
    = (Raise AuthenticationError, w).
Proof.
  intros Hrej Hb Ht Hl.
  pose proof (translate_dataset_positive service texts target_langs Hb) as H.
  cbv zeta in H.
  assert (length texts * length target_langs <> 0) as Hn.
  { destruct texts; [contradiction|]. destruct target_langs; [contradiction|].
    simpl. lia. }
  destruct (translate_dataset service texts target_langs (Z.of_nat b) world0)
    as [[rs|e] w].
  - destruct H as (Hiss & Hok & _). exfalso.
    destruct (issued w) as [|rq rqs] eqn:E.
    + apply (f_equal (@length _)) in Hiss.
      rewrite dataset_reqs_length in Hiss. simpl in Hiss. lia.
    + simpl in Hok. unfold task_ok in Hok. simpl in Hok.
      rewrite Hrej in Hok. discriminate.
  - exists w. destruct H as [_ [(_ & Hz & _)|[(k & rq & _ & Hr) _]]];
      [contradiction|].
    rewrite Hrej in Hr. now inversion Hr.
Qed.

Lemma C4_witness :
  credential_rejected strict_service API_KEY
  /\ 0 < 10
  /\ map of_string ["Hello"; "Good morning"]%string <> []
  /\ map of_string ["hin_Deva"]%string <> []
  /\ exists w,
       translate_dataset strict_service
         (map of_string ["Hello"; "Good morning"]%string)
         (map of_string ["hin_Deva"]%string) (Z.of_nat 10) world0
       = (Raise AuthenticationError, w).
Proof.
  split; [intros k rq; reflexivity|]. split; [lia|].
  split; [discriminate|]. split; [discriminate|].
  apply C4_invalid_credential_raises;
    [intros k rq; reflexivity | lia | discriminate | discriminate].
Defined.

(** ** Admission *)

(** The two admission policies tell traces apart: a sliding window of two
    over three calls is not admission by groups. *)
Example sliding_window_trace :
  let tr := [Start 0; Start 1; Done 0; Start 2; Done 1; Done 2] in
  sliding_from 3 tr = true /\ barrier tr = false.
Proof. split; reflexivity. Qed.



(** ** The limit does not change the outcome *)

(** With a positive [batch_size], [translate_dataset] returns exactly when
    there is something to translate and every call returns, and then it
    returns the triples of all the calls in order. *)
Lemma translate_dataset_output (service : Service) (texts target_langs : list str)
    (b : nat) :
  0 < b ->
  let tasks := number 0 (dataset_reqs target_langs texts) in
  output (translate_dataset service texts target_langs (Z.of_nat b) world0)
  = if negb (length texts * length target_langs =? 0)
       && all_ok (service API_KEY) tasks
    then Some (triples (service API_KEY) tasks)
    else None.
Proof.
  intros Hb tasks.
  destruct (Nat.eqb_spec (length texts * length target_langs) 0) as [Ez|Ez];
    destruct (all_ok (service API_KEY) tasks) eqn:Eok; simpl;
    try (destruct (@translate_dataset_returns service texts target_langs b Hb Ez Eok)
           as (w & -> & _); reflexivity);
    pose proof (translate_dataset_positive service texts target_langs Hb) as H;
    cbv zeta in H;
    destruct (translate_dataset service texts target_langs (Z.of_nat b) world0)
      as [[rs|e] w]; try reflexivity;
    destruct H as (Hiss & Hok & _ & Hn & _); exfalso.
  - contradiction.
  - contradiction.
  - rewrite Hiss in Hok. unfold tasks in Eok. congruence.
Qed.

Lemma seq_sorted (start len : nat) : StronglySorted lt (seq start len).
Proof.
  revert start; induction len as [|len IH]; intros start; simpl; constructor.
  - apply IH.
  - apply Forall_forall. intros x Hx. apply in_seq in Hx. lia.
Qed.

(** C7: for every dataset, [translate_dataset] with [batch_size = 1] and
    with [batch_size = 10] return the same list of triples (or neither
    returns), and with [batch_size = 1] the calls start in the order in
    which they were submitted: the k-th call to start is the k-th one
    built, so the numbers of the started calls increase strictly. *)
Theorem C7_limit_1_agrees_with_10 (service : Service)
    (texts target_langs : list str) :
  output (translate_dataset service texts target_langs 1 world0)
  = output (translate_dataset service texts target_langs 10 world0)
  /\ (let w := snd (translate_dataset service texts target_langs 1 world0) in
      started (events w) = seq 0 (length (issued w))
      /\ StronglySorted lt (started (events w))).
Proof.
  split.
  - change 1%Z with (Z.of_nat 1). change 10%Z with (Z.of_nat 10).
    rewrite !translate_dataset_output by lia. reflexivity.
  - cbv zeta.
    pose proof (@translate_dataset_positive service texts target_langs 1
                  ltac:(lia)) as H.
    cbv zeta in H. change (Z.of_nat 1) with 1%Z in H.
    destruct (translate_dataset service texts target_langs 1 world0)
      as [[rs|e] w]; simpl.
    + destruct H as (_ & _ & _ & _ & [Hs _ _] & _).
      rewrite Hs. split; [reflexivity | apply seq_sorted].
    + destruct H as [[Hs _ _] _].
      rewrite Hs. split; [reflexivity | apply seq_sorted].
Qed.

(** ** No deduplication *)

(** C8: the same text submitted twice gives two calls and two entries of
    the result, each entry read off its own call; nothing is shared
    between them, so the two translations may differ. *)
Theorem C8_no_deduplication (service : Service) (t tl : str) (b : nat)
    (r0 r1 : Translation) :
  0 < b ->
  respond (service API_KEY) 0 (mkReq t tl true) = Success r0 ->
  respond (service API_KEY) 1 (mkReq t tl true) = Success r1 ->
  exists w,
    translate_dataset service [t; t] [tl] (Z.of_nat b) world0
    = (Ret [(t, tl, translated_text r0); (t, tl, translated_text r1)], w)
    /\ issued w = [mkReq t tl true; mkReq t tl true].
Proof.
  intros Hb H0 H1.
  destruct (@translate_dataset_returns service [t; t] [tl] b Hb) as (w & Hrun & Hiss).
  - simpl. lia.
  - simpl. unfold task_ok. simpl. now rewrite H0, H1.
  - exists w. rewrite Hrun, Hiss. split; [|reflexivity].
    simpl. now rewrite H0, H1.
Qed.

Lemma C8_witness :
  let rq := mkReq (of_string "Hello"%string) (of_string "hin_Deva"%string) true in
  let r0 := mkTranslation (of_string "Hello"%string ++ [0%N]) [] [] in
  let r1 := mkTranslation (of_string "Hello"%string ++ [1%N]) [] [] in
  0 < 10
  /\ respond counting_env 0 rq = Success r0
  /\ respond counting_env 1 rq = Success r1
  /\ translated_text r0 <> translated_text r1
  /\ exists w,
       translate_dataset (fun _ => counting_env)
         [of_string "Hello"%string; of_string "Hello"%string]
         [of_string "hin_Deva"%string] (Z.of_nat 10) world0
       = (Ret [(of_string "Hello"%string, of_string "hin_Deva"%string,
                translated_text r0);
               (of_string "Hello"%string, of_string "hin_Deva"%string,
                translated_text r1)], w)
       /\ issued w = [rq; rq].
Proof.
  cbv zeta. split; [lia|]. split; [reflexivity|]. split; [reflexivity|].
  split; [discriminate|].
  apply (@C8_no_deduplication (fun _ => counting_env));
    [lia | reflexivity | reflexivity].
Defined.

(** ** Nothing to translate *)

(** With a positive [batch_size] and no text, or no target language,
    [translate_dataset] makes no call and raises [ZeroDivisionError]. *)
Lemma translate_dataset_nothing (service : Service) (texts target_langs : list str)
    (b : nat) :
  0 < b ->
  length texts * length target_langs = 0 ->
  exists w,
    translate_dataset service texts target_langs (Z.of_nat b) world0
    = (Raise ZeroDivisionError, w)
    /\ issued w = [].
Proof.
  intros Hb Hz.
  pose proof (translate_dataset_positive service texts target_langs Hb) as H.
  cbv zeta in H.
  destruct (translate_dataset service texts target_langs (Z.of_nat b) world0)
    as [[rs|e] w].
  - destruct H as (_ & _ & _ & Hn & _). contradiction.
  - destruct H as [_ [(-> & _ & Hiss)|[(k & rq & Hk & _) (m & Hm)]]].
    + now exists w.
    + exfalso. rewrite Hm in Hk. apply dataset_reqs_prefix in Hk.
      assert (k < length (dataset_reqs target_langs texts)) as Hlt
        by (apply nth_error_Some; congruence).
      rewrite dataset_reqs_length in Hlt. lia.
Qed.

(** C10 fails on an empty dataset: with no text at all, and also with no
    target language, [translate_dataset] does not return the empty list
    but raises [ZeroDivisionError], at the division by [total] in the
    closing report. *)
Theorem C10_empty_dataset_raises (service : Service) (texts target_langs : list str) :
  translate_dataset service [] target_langs 10 world0
  = (Raise ZeroDivisionError, world0)
  /\ fst (translate_dataset service texts [] 10 world0) = Raise ZeroDivisionError.
Proof.
  split; [reflexivity|].
  destruct (@translate_dataset_nothing service texts [] 10 ltac:(lia))
    as (w & Hrun & _).
  - simpl. lia.
  - change (Z.of_nat 10) with 10%Z in Hrun. now rewrite Hrun.
Qed.

(** Apart from that, the triples are as C10 says: with something to
    translate, a positive [batch_size] and calls that all return, the
    result has one triple per text and target language, texts first, each
    with the text and language submitted. *)
Lemma translate_dataset_triples (service : Service) (texts target_langs : list str)
    (b : nat) :
  0 < b -> texts <> [] -> target_langs <> [] ->
  (forall k rq, exists r, respond (service API_KEY) k rq = Success r) ->
  exists rs w,
    translate_dataset service texts target_langs (Z.of_nat b) world0 = (Ret rs, w)
    /\ length rs = length texts * length target_langs
    /\ map (fun x => (fst (fst x), snd (fst x))) rs
       = flat_map (fun text => map (fun tl => (text, tl)) target_langs) texts.
Proof.
  intros Hb Ht Hl Hall.
  assert (length texts * length target_langs <> 0) as Hn.
  { destruct texts; [contradiction|]. destruct target_langs; [contradiction|].
    simpl. lia. }
  assert (all_ok (service API_KEY) (number 0 (dataset_reqs target_langs texts))
          = true) as Hok.
  { apply all_ok_pointwise. intros i rq _. apply Hall. }
  destruct (@translate_dataset_returns service texts target_langs b Hb Hn Hok)
    as (w & Hrun & _).
  eexists. exists w. split; [exact Hrun|]. split.
  - rewrite triples_length by assumption.
    now rewrite number_length, dataset_reqs_length.
  - clear Hrun Hok Hn Ht Hl. unfold dataset_reqs.
    generalize 0 as n.
    induction texts as [|t texts IH]; intros n; [reflexivity|].
    cbn [flat_map]. rewrite number_app, triples_app, map_app, IH. f_equal.
    clear IH. revert n. induction target_langs as [|tl tls IH]; intros n;
      [reflexivity|].
    unfold number, triples. simpl.
    destruct (Hall n (mkReq t tl true)) as [r ->]. simpl. f_equal.
    apply IH.
Qed.

(** ** Blank lines *)

Lemma lstrip_nil (s : str) : lstrip s = [] <-> blank s = true.
Proof.
  unfold blank. induction s as [|c s IH]; simpl; [tauto|].
  destruct (isspace c); simpl; [exact IH|]. split; discriminate.
Qed.

Lemma lstrip_keeps (s : str) (c : N) :
  In c s -> isspace c = false -> lstrip s <> [].
Proof.
  intros Hin Hc H. apply lstrip_nil in H. unfold blank in H.
  rewrite forallb_forall in H. specialize (H c Hin). congruence.
Qed.

Lemma lstrip_head (s : str) :
  blank s = false -> exists c s', lstrip s = c :: s' /\ isspace c = false.
Proof.
  unfold blank. induction s as [|c s IH]; simpl; [discriminate|].
  destruct (isspace c) eqn:E; simpl; [exact IH|]. intros _. eauto.
Qed.

(** The test [if line.strip()] holds exactly of the lines that are not
    blank. *)
Lemma strip_truthy (s : str) : truthy (strip s) = negb (blank s).
Proof.
  unfold strip, rstrip. destruct (blank s) eqn:B; simpl.
  - apply lstrip_nil in B. rewrite B. reflexivity.
  - destruct (lstrip_head s B) as (c & s' & E & Hc). rewrite E.
    assert (lstrip (rev (c :: s')) <> []) as Hne.
    { apply (@lstrip_keeps _ c); [|exact Hc]. apply in_rev.
      rewrite rev_involutive. now left. }
    destruct (lstrip (rev (c :: s'))) as [|d u] eqn:El; [contradiction|].
    destruct (rev (d :: u)) as [|x v] eqn:Er; [|reflexivity].
    apply (f_equal (@length _)) in Er. rewrite length_rev in Er. discriminate.
Qed.

Lemma file_reqs_filter (tl : str) (lines : list str) :
  file_reqs tl lines
  = map (fun line => mkReq (strip line) tl true)
        (filter (fun line => negb (blank line)) lines).
Proof.
  unfold file_reqs. induction lines as [|line lines IH]; simpl; [reflexivity|].
  rewrite strip_truthy. destruct (negb (blank line)); simpl; now rewrite IH.
Qed.

Lemma file_reqs_in (tl : str) (lines : list str) (m : nat) (rq : TranslateReq) :
  In rq (file_reqs tl (firstn m lines)) ->
  exists line, In line lines /\ blank line = false
               /\ rq = mkReq (strip line) tl true.
Proof.
  rewrite file_reqs_filter, in_map_iff. intros (line & <- & Hin).
  apply filter_In in Hin as [Hin Hb]. exists line. repeat split.
  - rewrite <- (firstn_skipn m lines). apply in_or_app. now left.
  - now destruct (blank line).
Qed.

(** C9: [translate_file] skips the blank lines.  In every run, a call is
    only ever made for a line that is not blank, with the stripped line as
    its text.  With a positive [batch_size] and calls that all return, the
    calls made are those of the lines that are not blank, in the order of
    the file, and the lines written are their translations, one per such
    line and in the same order, each followed by a line feed. *)
Theorem C9_blank_lines_skipped (client : Env) (lines : list str)
    (target_lang : str) :
  let kept := filter (fun line => negb (blank line)) lines in
  (forall batch_size rq,
     In rq (issued (snd (translate_file client lines target_lang
                           batch_size world0))) ->
     exists line, In line lines /\ blank line = false
                  /\ rq = mkReq (strip line) target_lang true)
  /\ (forall b,
        0 < b ->
        (forall i line, nth_error kept i = Some line ->
           exists r, respond client i (mkReq (strip line) target_lang true)
                     = Success r) ->
        exists out w,
          translate_file client lines target_lang (Z.of_nat b) world0
          = (Ret out, w)
          /\ issued w = map (fun line => mkReq (strip line) target_lang true) kept
          /\ length out = length kept
          /\ forall i line, nth_error kept i = Some line ->
               exists r, respond client i (mkReq (strip line) target_lang true)
                         = Success r
                         /\ nth_error out i
                            = Some (translated_text r ++ [newline])).
Proof.
  intros kept. split.
  - intros batch_size rq.
    destruct (Z.lt_trichotomy batch_size 0) as [Hneg|[Hz|Hpos]].
    + rewrite translate_file_negative by assumption. simpl. tauto.
    + subst. rewrite translate_file_zero. simpl. tauto.
    + pose proof (@translate_file_positive client lines target_lang
                    (Z.to_nat batch_size) ltac:(lia)) as H.
      rewrite Z2Nat.id in H by lia.
      destruct (translate_file client lines target_lang batch_size world0)
        as [[out|e] w]; simpl.
      * destruct H as (Hiss & _). rewrite Hiss.
        rewrite <- (firstn_all lines) at 1. apply file_reqs_in.
      * destruct H as [_ (m & Hm)]. rewrite Hm. apply file_reqs_in.
  - intros b Hb Hall.
    assert (all_ok client (number 0 (file_reqs target_lang lines)) = true) as Hok.
    { apply all_ok_pointwise. intros i rq Hi. rewrite file_reqs_filter in Hi.
      fold kept in Hi. rewrite nth_error_map in Hi.
      destruct (nth_error kept i) as [line|] eqn:E; [|discriminate].
      inversion Hi; subst rq. now apply Hall. }
    destruct (@translate_file_returns client lines target_lang b Hb Hok)
      as (w & Hrun & Hiss).
    eexists. exists w. split; [exact Hrun|]. split; [|split].
    + now rewrite Hiss, file_reqs_filter.
    + rewrite out_lines_length by assumption.
      rewrite number_length, file_reqs_filter. apply length_map.
    + intros i line Hi.
      apply (@out_lines_nth client (file_reqs target_lang lines) 0 i
               (mkReq (strip line) target_lang true) Hok).
      rewrite file_reqs_filter. fold kept. now rewrite nth_error_map, Hi.
Qed.

(** The run on that file: two calls, two lines written. *)
Example demo_lines_run :
  translate_file demo_env demo_lines (of_string "hi"%string) 2 world0
  = (Ret [of_string "Hihi"%string ++ [newline];
          of_string "Byehi"%string ++ [newline]],
     mkWorld [mkReq (of_string "Hi"%string) (of_string "hi"%string) true;
              mkReq (of_string "Bye"%string) (of_string "hi"%string) true]
             [Start 0; Done 0; Start 1; Done 1]).
Proof. vm_compute. reflexivity. Qed.

Lemma C9_witness :
  exists out w,
    translate_file demo_env demo_lines (of_string "hin_Deva"%string)
      (Z.of_nat 2) world0 = (Ret out, w)
    /\ issued w
       = map (fun line => mkReq (strip line) (of_string "hin_Deva"%string) true)
             (filter (fun line => negb (blank line)) demo_lines)
    /\ length out = 2.
Proof.
  destruct (proj2 (@C9_blank_lines_skipped demo_env demo_lines
                     (of_string "hin_Deva"%string)) 2 ltac:(lia))
    as (out & w & Hrun & Hiss & Hlen & _).
  - intros i line _. eexists. reflexivity.
  - exists out, w. auto.
Defined.

(** ** Validation of a request *)

(** C5: a translation request with an empty text, or an empty target
    language code, raises [ValidationError] when it is constructed: the
    world is left as it was, no call has been built and none has
    started. *)
Theorem C5_validation_at_construction (env : Env) (rq : TranslateReq) (w : World) :
  text rq = [] \/ target_lang rq = [] ->
  validate rq = inl ValidationError
  /\ request env rq w = (Raise ValidationError, w).
Proof.
  intros H.
  assert (validate rq = inl ValidationError) as Hv.
  { unfold validate. destruct H as [-> | ->]; simpl; [reflexivity|].
    now rewrite andb_false_r. }
  split; [exact Hv|].
  unfold request, bind. now rewrite Hv.
Qed.

Lemma C5_witness :
  let rq := mkReq [] (of_string "hin_Deva"%string) true in
  (text rq = [] \/ target_lang rq = [])
  /\ request demo_env rq world0 = (Raise ValidationError, world0).
Proof.
  cbv zeta. split; [now left|].
  apply (@C5_validation_at_construction demo_env
           (mkReq [] (of_string "hin_Deva"%string) true) world0).
  now left.
Defined.

(** A valid request does reach the service. *)
Example request_valid :
  request demo_env
    (mkReq (of_string "Hello"%string) (of_string "hin_Deva"%string) true) world0
  = (Ret (mkTranslation (of_string "Hellohin_Deva"%string) [] []),
     mkWorld [mkReq (of_string "Hello"%string) (of_string "hin_Deva"%string) true]
             [Start 0; Done 0]).
Proof. reflexivity. Qed.

(** * Further properties of the examples *)

(** ** The batch size at its edges *)

(** X1: with [batch_size = 0], [translate_dataset] and [translate_file]
    raise [ValueError], from [range], before any call is made: the world
    is left as it was. *)
Theorem X1_batch_size_zero (service : Service) (client : Env)
    (texts target_langs lines : list str) (target_lang : str) (w : World) :
  translate_dataset service texts target_langs 0 w = (Raise ValueError, w)
  /\ translate_file client lines target_lang 0 w = (Raise ValueError, w).
Proof. split; reflexivity. Qed.

(** X2: with a negative [batch_size] the loop over [range] has nothing to
    walk through.  [translate_file] makes no call and writes an empty
    output whatever the input file holds, and [translate_dataset], given
    something to translate, makes no call and returns the empty list. *)
Theorem X2_batch_size_negative (service : Service) (client : Env)
    (texts target_langs lines : list str) (target_lang : str)
    (batch_size : Z) (w : World) :
  (batch_size < 0)%Z ->
  translate_file client lines target_lang batch_size w = (Ret [], w)
  /\ (texts <> [] -> target_langs <> [] ->
      translate_dataset service texts target_langs batch_size w = (Ret [], w)).
Proof.
  intros Hneg. split.
  - now apply translate_file_negative.
  - intros Ht Hl. rewrite translate_dataset_negative by assumption.
    destruct texts as [|t texts]; [contradiction|].
    destruct target_langs as [|tl target_langs]; [contradiction|].
    reflexivity.
Qed.

Lemma X2_witness :
  (-1 < 0)%Z
  /\ translate_file demo_env demo_lines (of_string "hin_Deva"%string) (-1) world0
     = (Ret [], world0)
  /\ translate_dataset demo_service [of_string "Hello"%string]
       [of_string "hin_Deva"%string] (-1) world0
     = (Ret [], world0).
Proof.
  split; [lia|].
  destruct (@X2_batch_size_negative demo_service demo_env
              [of_string "Hello"%string] [of_string "hin_Deva"%string]
              demo_lines (of_string "hin_Deva"%string) (-1) world0 ltac:(lia))
    as [Hf Hd].
  split; [exact Hf|]. apply Hd; discriminate.
Defined.

(** ** Calls in flight *)

(** X3: [translate_file] keeps its limit: at no point of a run, whether it
    returns or raises, are more than [batch_size] calls in flight (none at
    all when [batch_size] is not positive). *)
Theorem X3_translate_file_limit (client : Env) (lines : list str)
    (target_lang : str) (batch_size : Z) :
  (Z.of_nat (peak (events (snd (translate_file client lines target_lang
                                  batch_size world0))))
   <= Z.max 0 batch_size)%Z.
Proof.
  destruct (Z.lt_trichotomy batch_size 0) as [Hneg|[Hz|Hpos]].
  - rewrite translate_file_negative by assumption. simpl. lia.
  - subst. rewrite translate_file_zero. simpl. lia.
  - pose proof (@translate_file_cap client lines target_lang
                  (Z.to_nat batch_size) ltac:(lia)) as H.
    rewrite Z2Nat.id in H by lia. lia.
Qed.

(** ** The value returned and the batch size *)

(** With a positive [batch_size], [translate_file] returns exactly when
    every call returns, and then it returns the lines of all the calls in
    order. *)
Lemma translate_file_output (client : Env) (lines : list str) (target_lang : str)
    (b : nat) :
  0 < b ->
  let tasks := number 0 (file_reqs target_lang lines) in
  output (translate_file client lines target_lang (Z.of_nat b) world0)
  = if all_ok client tasks then Some (out_lines client tasks) else None.
Proof.
  intros Hb tasks.
  destruct (all_ok client tasks) eqn:Eok.
  - destruct (@translate_file_returns client lines target_lang b Hb Eok)
      as (w & -> & _). reflexivity.
  - pose proof (translate_file_positive client lines target_lang Hb) as H.
    destruct (translate_file client lines target_lang (Z.of_nat b) world0)
      as [[out|e] w]; [|reflexivity].
    destruct H as (Hiss & Hok & _). rewrite Hiss in Hok.
    unfold tasks in Eok. congruence.
Qed.

(** X4: the value returned does not depend on the batch size.  For any two
    positive values of [batch_size], [translate_file] writes the same
    lines and [translate_dataset] returns the same triples, or neither
    returns. *)
Theorem X4_batch_size_irrelevant (service : Service) (client : Env)
    (texts target_langs lines : list str) (target_lang : str)
    (batch_size batch_size' : Z) :
  (0 < batch_size)%Z -> (0 < batch_size')%Z ->
  output (translate_file client lines target_lang batch_size world0)
  = output (translate_file client lines target_lang batch_size' world0)
  /\ output (translate_dataset service texts target_langs batch_size world0)
     = output (translate_dataset service texts target_langs batch_size' world0).
Proof.
  intros Hb Hb'.
  rewrite <- (Z2Nat.id batch_size), <- (Z2Nat.id batch_size') by lia.
  split.
  - rewrite !translate_file_output by lia. reflexivity.
  - rewrite !translate_dataset_output by lia. reflexivity.
Qed.

Lemma X4_witness :
  (0 < 1)%Z /\ (0 < 3)%Z
  /\ output (translate_file demo_env demo_lines (of_string "hi"%string) 1 world0)
     = output (translate_file demo_env demo_lines (of_string "hi"%string) 3 world0)
  /\ output (translate_dataset demo_service
               (map of_string ["a"; "b"; "c"]%string)
               (map of_string ["x"; "y"]%string) 1 world0)
     = output (translate_dataset demo_service
                 (map of_string ["a"; "b"; "c"]%string)
                 (map of_string ["x"; "y"]%string) 3 world0).
Proof.
  split; [lia|]. split; [lia|].
  apply X4_batch_size_irrelevant; lia.
Defined.

(** A loop only ever adds to the trace when each round does. *)
Lemma for_each_events {A T} (xs : list A) (body : A -> T -> M T) :
  (forall x acc w, In x xs ->
     exists tr, events (snd (body x acc w)) = events w ++ tr) ->
  forall acc w,
    exists tr, events (snd (for_each xs acc body w)) = events w ++ tr.
Proof.
  induction xs as [|x xs IH]; intros Hbody acc w; simpl.
  - exists []. now rewrite app_nil_r.
  - unfold bind. destruct (Hbody x acc w (or_introl eq_refl)) as [tr Hx].
    destruct (body x acc w) as [[acc'|e] w']; simpl in Hx.
    + destruct (IH (fun y a v H => Hbody y a v (or_intror H)) acc' w')
        as [tr' Hrest].
      exists (tr ++ tr'). now rewrite Hrest, Hx, app_assoc.
    + exists tr. exact Hx.
Qed.

Lemma peak_from_le (tr : list Event) : forall n, n <= peak_from n tr.
Proof. destruct tr as [|[k|k] tr]; intros n; simpl; lia. Qed.

Lemma chunks_cons {A} (b : nat) (l : list A) :
  0 < b -> l <> [] ->
  exists rest, chunks b l = firstn b l :: rest.
Proof.
  intros Hb Hl. unfold chunks, num_chunks.
  assert (1 <= (length l + b - 1) / b) as Hn.
  { apply Nat.div_le_lower_bound; [lia|].
    destruct l; [contradiction|]. simpl. lia. }
  destruct ((length l + b - 1) / b) as [|n]; [lia|].
  simpl. eauto.
Qed.

Lemma chunks_length_min {A} (b : nat) (l c : list A) :
  In c (chunks b l) -> length c <= Nat.min b (length l).
Proof.
  unfold chunks. rewrite in_map_iff. intros (q & <- & _).
  rewrite length_firstn, length_skipn. lia.
Qed.

(** X5: the number of calls [translate_dataset] has in flight at its
    busiest is exactly the smaller of [batch_size] and the number of texts,
    times the number of target languages: a whole group of texts is sent
    for every target language at once.  This holds of every run with a
    positive [batch_size], whether it returns or raises. *)
Theorem X5_translate_dataset_peak (service : Service)
    (texts target_langs : list str) (b : nat) :
  0 < b ->
  peak (events (snd (translate_dataset service texts target_langs
                       (Z.of_nat b) world0)))
  = Nat.min b (length texts) * length target_langs.
Proof.
  intros Hb. set (client := service API_KEY).
  set (m := Nat.min b (length texts)).
  (* the run is the loop, then the closing report, which leaves the world *)
  assert (snd (translate_dataset service texts target_langs (Z.of_nat b) world0)
          = snd (for_each (chunks b texts) ([], 0)
                   (dataset_step client target_langs) world0)) as Hrun.
  { rewrite translate_dataset_chunks by assumption. fold client. unfold bind.
    destruct (for_each (chunks b texts) ([], 0)
                (dataset_step client target_langs) world0) as [[acc|e] w];
      [|reflexivity].
    unfold elapsed_over.
    destruct (length texts * length target_langs =? 0); reflexivity. }
  rewrite Hrun. apply Nat.le_antisymm.
  - (* no group is larger than [m] texts *)
    assert (dataset_inv client (m * length target_langs) ([], 0) world0) as H0.
    { unfold dataset_inv. simpl. repeat split; try reflexivity;
        apply (orderly_world0 (m * length target_langs)). }
    pose proof (@dataset_loop_inv client target_langs m (chunks b texts) ([], 0)
                  world0 (@chunks_length_min _ b texts) H0) as HI.
    destruct (for_each (chunks b texts) ([], 0)
                (dataset_step client target_langs) world0) as [[acc|e] w]; simpl.
    + destruct HI as (_ & _ & _ & Hord & _). apply Hord.
    + destruct HI as [_ Hord]. apply Hord.
  - (* and the first group has [m] texts *)
    destruct (Nat.eq_dec (length texts) 0) as [Hz|Hnz].
    + unfold m. rewrite Hz, Nat.min_0_r. simpl. lia.
    + assert (texts <> []) as Hne by (intros ->; now apply Hnz).
      destruct (@chunks_cons _ b texts Hb Hne) as [rest Hc].
      rewrite Hc. cbn [for_each]. unfold bind.
      rewrite dataset_step_eq. cbv zeta.
      set (rqs := dataset_reqs target_langs (firstn b texts)).
      set (tasks := number (length (issued world0)) rqs).
      set (w1 := mkWorld (issued world0 ++ rqs)
                         (events world0 ++ gather_events client tasks)).
      assert (m * length target_langs <= peak (events w1)) as Hfirst.
      { destruct (gather_events_shape client tasks) as (ds & E & _).
        unfold w1. simpl. rewrite E. unfold peak.
        rewrite peak_from_app, peak_from_starts, length_map.
        unfold tasks. rewrite number_length. unfold rqs.
        rewrite dataset_reqs_length, length_firstn. fold m.
        apply Nat.le_max_l. }
      destruct (gather_exc client tasks) as [e|]; [exact Hfirst|].
      destruct (@for_each_events _ _ rest (dataset_step client target_langs)
                  (fun c a v _ =>
                     match a with (r, p) =>
                       ex_intro _ _
                         (f_equal (fun x => events (snd x))
                            (dataset_step_eq client target_langs c r p v))
                     end)
                  (@nil (str * str * str) ++ triples client tasks,
                   0 + length tasks) w1) as [tr Htr].
      rewrite Htr. unfold peak in *. rewrite peak_from_app. lia.
Qed.

Lemma X5_witness :
  0 < 2
  /\ peak (events (snd (translate_dataset demo_service
                          (map of_string ["a"; "b"; "c"]%string)
                          (map of_string ["x"; "y"; "z"]%string)
                          (Z.of_nat 2) world0)))
     = Nat.min 2 3 * 3.
Proof.
  split; [lia|].
  apply (@X5_translate_dataset_peak demo_service
           (map of_string ["a"; "b"; "c"]%string)
           (map of_string ["x"; "y"; "z"]%string) 2).
  lia.
Defined.

(** ** What a run leaves behind *)

Lemma completed_app (tr tr' : list Event) :
  completed (tr ++ tr') = completed tr ++ completed tr'.
Proof.
  induction tr as [|[k|k] tr IH]; simpl; auto. now rewrite IH.
Qed.

Lemma completed_starts (ids : list nat) : completed (map Start ids) = [].
Proof. induction ids as [|k ids IH]; simpl; auto. Qed.

Lemma completed_dones (ds : list nat) : completed (map Done ds) = ds.
Proof. induction ds as [|k ds IH]; simpl; auto. now rewrite IH. Qed.

(** The events of a [gather] that returns: all the starts, then all the
    completions in the order of completion. *)
Lemma gather_events_ok (env : Env) (tasks : list Task) :
  gather_exc env tasks = None ->
  gather_events env tasks
  = map Start (map fst tasks)
    ++ map Done (map fst (completion_order env tasks)).
Proof.
  intros H. apply gather_exc_none in H. unfold gather_events.
  rewrite await_all_ok
    by now rewrite <- (all_ok_perm env (completion_order_perm env tasks)).
  simpl. now rewrite !map_map.
Qed.

(** One more group that returns, from a world in which every call made has
    completed once. *)
Lemma completed_group (env : Env) (w : World) (rqs : list TranslateReq) :
  Permutation (completed (events w)) (seq 0 (length (issued w))) ->
  let tasks := number (length (issued w)) rqs in
  gather_exc env tasks = None ->
  Permutation (completed (events w ++ gather_events env tasks))
              (seq 0 (length (issued w ++ rqs))).
Proof.
  intros Hp tasks Hret.
  rewrite (gather_events_ok env tasks Hret).
  rewrite !completed_app, completed_starts, completed_dones. simpl.
  rewrite length_app, seq_app. apply Permutation_app; [exact Hp|].
  simpl. rewrite <- (number_fst (length (issued w)) rqs). fold tasks.
  apply Permutation_map. symmetry. apply completion_order_perm.
Qed.

(** X6: when [translate_dataset] or [translate_file] returns, every call it
    made has completed, each exactly once, and nothing is left in flight:
    the completions recorded are a rearrangement of the calls made. *)
Theorem X6_returns_with_all_calls_completed (service : Service) (client : Env)
    (texts target_langs lines : list str) (target_lang : str) (batch_size : Z) :
  (forall rs w,
     translate_dataset service texts target_langs batch_size world0 = (Ret rs, w) ->
     Permutation (completed (events w)) (seq 0 (length (issued w)))
     /\ in_flight (events w) = 0)
  /\ (forall out w,
        translate_file client lines target_lang batch_size world0 = (Ret out, w) ->
        Permutation (completed (events w)) (seq 0 (length (issued w)))
        /\ in_flight (events w) = 0).
Proof.
  destruct (Z.lt_trichotomy batch_size 0) as [Hneg|[Hz|Hpos]].
  - rewrite translate_file_negative, translate_dataset_negative by assumption.
    split.
    + intros rs w H.
      destruct (length texts * length target_langs =? 0); inversion H; subst.
      split; reflexivity.
    + intros out w H. inversion H; subst. split; reflexivity.
  - subst. split; intros x w H; discriminate.
  - assert (0 < Z.to_nat batch_size) as Hb by lia.
    rewrite <- (Z2Nat.id batch_size) by lia.
    set (b := Z.to_nat batch_size) in *. split.
    + intros rs w Hrun.
      pose proof (translate_dataset_positive service texts target_langs Hb) as Hq.
      cbv zeta in Hq. rewrite Hrun in Hq.
      destruct Hq as (_ & _ & _ & _ & _ & Hq). split; [|exact Hq].
      rewrite translate_dataset_chunks in Hrun by assumption.
      unfold bind at 1 in Hrun.
      assert (forall cs acc v,
                Permutation (completed (events v)) (seq 0 (length (issued v))) ->
                match for_each cs acc
                        (dataset_step (service API_KEY) target_langs) v with
                | (Ret _, w') =>
                    Permutation (completed (events w'))
                                (seq 0 (length (issued w')))
                | (Raise _, _) => True
                end) as HI.
      { intros cs. apply for_each_inv. intros c [r p] v _ Hv.
        rewrite dataset_step_eq. cbv zeta.
        destruct (gather_exc (service API_KEY)
                    (number (length (issued v)) (dataset_reqs target_langs c)))
          eqn:E; [exact I|].
        now apply completed_group. }
      specialize (HI (chunks b texts) ([], 0) world0 (Permutation_refl _)).
      destruct (for_each (chunks b texts) ([], 0)
                  (dataset_step (service API_KEY) target_langs) world0)
        as [[acc|e] w']; [|discriminate].
      unfold bind, elapsed_over in Hrun.
      destruct (length texts * length target_langs =? 0); inversion Hrun; subst.
      exact HI.
    + intros out w Hrun.
      pose proof (translate_file_positive client lines target_lang Hb) as Hq.
      rewrite Hrun in Hq. destruct Hq as (_ & _ & _ & _ & Hq).
      split; [|exact Hq].
      rewrite translate_file_chunks in Hrun by assumption.
      assert (forall cs acc v,
                Permutation (completed (events v)) (seq 0 (length (issued v))) ->
                match for_each cs acc (file_step client target_lang) v with
                | (Ret _, w') =>
                    Permutation (completed (events w'))
                                (seq 0 (length (issued w')))
                | (Raise _, _) => True
                end) as HI.
      { intros cs. apply for_each_inv. intros c a v _ Hv.
        rewrite file_step_eq. cbv zeta.
        destruct (gather_exc client
                    (number (length (issued v)) (file_reqs target_lang c)))
          eqn:E; [exact I|].
        now apply completed_group. }
      specialize (HI (chunks b lines) [] world0 (Permutation_refl _)).
      rewrite Hrun in HI. exact HI.
Qed.

Lemma X6_witness :
  exists rs w,
    translate_dataset demo_service (map of_string ["a"; "b"; "c"]%string)
      (map of_string ["x"; "y"]%string) 2 world0 = (Ret rs, w)
    /\ Permutation (completed (events w)) (seq 0 (length (issued w)))
    /\ in_flight (events w) = 0.
Proof.
  eexists. eexists. split; [vm_compute; reflexivity|].
  eapply (proj1 (@X6_returns_with_all_calls_completed demo_service demo_env
                  (map of_string ["a"; "b"; "c"]%string)
                  (map of_string ["x"; "y"]%string) [] [] 2)).
  vm_compute. reflexivity.
Defined.

(** A run that raises can leave calls in flight: here the first call of a
    group of two raises at once and the second is never seen to
    complete. *)
Example raise_leaves_in_flight :
  let run := translate_dataset flaky_service (map of_string ["a"; "b"]%string)
               (map of_string ["x"]%string) 2 world0 in
  fst run = Raise ZabanError
  /\ events (snd run) = [Start 0; Start 1; Done 0]
  /\ in_flight (events (snd run)) = 1.
Proof. cbv zeta. repeat split; vm_compute; reflexivity. Qed.

(** ** [translate_file] when a call raises *)

(** X7: [translate_file] writes all or nothing.  With a positive
    [batch_size], if the call for some line that is not blank raises, then
    [translate_file] raises the exception of a call that was made and
    writes no output; the calls made are those of a prefix of the file. *)
Theorem X7_translate_file_failure (client : Env) (lines : list str)
    (target_lang : str) (b i : nat) (line : str) (e : Exc) :
  0 < b ->
  nth_error (filter (fun line => negb (blank line)) lines) i = Some line ->
  respond client i (mkReq (strip line) target_lang true) = Failure e ->
  exists e' w,
    translate_file client lines target_lang (Z.of_nat b) world0 = (Raise e', w)
    /\ (exists k rq, nth_error (issued w) k = Some rq
                     /\ respond client k rq = Failure e')
    /\ (exists m, issued w = file_reqs target_lang (firstn m lines)).
Proof.
  intros Hb Hi Hfail.
  pose proof (translate_file_positive client lines target_lang Hb) as H.
  destruct (translate_file client lines target_lang (Z.of_nat b) world0)
    as [[out|e'] w].
  - exfalso. destruct H as (Hiss & Hok & _). rewrite Hiss in Hok.
    assert (nth_error (file_reqs target_lang lines) i
            = Some (mkReq (strip line) target_lang true)) as Hrq
      by now rewrite file_reqs_filter, nth_error_map, Hi.
    apply (number_nth 0) in Hrq.
    destruct (@all_ok_in client _ _ _ Hok Hrq) as [r Hr]. simpl in Hr.
    congruence.
  - exists e', w. destruct H as [[Hcall _] Hprefix]. auto.
Qed.

Lemma X7_witness :
  exists e' w,
    translate_file flaky_env demo_lines (of_string "hi"%string) (Z.of_nat 2) world0
    = (Raise e', w)
    /\ (exists k rq, nth_error (issued w) k = Some rq
                     /\ respond flaky_env k rq = Failure e')
    /\ (exists m, issued w = file_reqs (of_string "hi"%string) (firstn m demo_lines)).
Proof.
  apply (@X7_translate_file_failure flaky_env demo_lines (of_string "hi"%string)
           2 0 [72; 105; 10]%N ZabanError); [lia | reflexivity | reflexivity].
Defined.

(** ** A file with nothing to translate *)

Lemma file_reqs_blank (tl : str) (lines : list str) :
  (forall line, In line lines -> blank line = true) ->
  file_reqs tl lines = [].
Proof.
  intros H. rewrite file_reqs_filter.
  induction lines as [|line lines IH]; simpl; [reflexivity|].
  rewrite (H line (or_introl eq_refl)). simpl.
  apply IH. intros l Hl. apply H. now right.
Qed.

(** X8: on an empty file, or a file of blank lines only, [translate_file]
    with a positive [batch_size] makes no call and writes an empty output,
    whatever the client would answer. *)
Theorem X8_translate_file_nothing_to_translate (client : Env) (lines : list str)
    (target_lang : str) (b : nat) :
  0 < b ->
  (forall line, In line lines -> blank line = true) ->
  exists w,
    translate_file client lines target_lang (Z.of_nat b) world0 = (Ret [], w)
    /\ issued w = [] /\ started (events w) = [].
Proof.
  intros Hb Hblank.
  assert (file_reqs target_lang lines = []) as Hnone
    by now apply file_reqs_blank.
  destruct (@translate_file_returns client lines target_lang b Hb) as (w & Hrun & Hiss).
  - now rewrite Hnone.
  - exists w. rewrite Hnone in *. split; [exact Hrun|]. split; [exact Hiss|].
    pose proof (translate_file_positive client lines target_lang Hb) as H.
    rewrite Hrun in H. destruct H as (_ & _ & _ & [Hs _ _] & _).
    now rewrite Hs, Hiss.
Qed.

Lemma X8_witness :
  exists w,
    translate_file flaky_env [[10]; [32; 9; 10]; [12288]]%N
      (of_string "hi"%string) (Z.of_nat 2) world0 = (Ret [], w)
    /\ issued w = [] /\ started (events w) = [].
Proof.
  apply X8_translate_file_nothing_to_translate; [lia|].
  intros line [<-|[<-|[<-|[]]]]; reflexivity.
Defined.

(** ** The order of completion *)

Lemma all_ok_ext (env env' : Env) (ts : list Task) :
  (forall k rq, respond env k rq = respond env' k rq) ->
  all_ok env ts = all_ok env' ts.
Proof.
  intros H. unfold all_ok.
  induction ts as [|[k rq] ts IH]; simpl; [reflexivity|].
  unfold task_ok at 1 3. simpl. now rewrite H, IH.
Qed.

Lemma out_lines_ext (env env' : Env) (ts : list Task) :
  (forall k rq, respond env k rq = respond env' k rq) ->
  out_lines env ts = out_lines env' ts.
Proof.
  intros H. unfold out_lines. apply flat_map_ext. intros [k rq]. simpl.
  now rewrite H.
Qed.

Lemma triples_ext (env env' : Env) (ts : list Task) :
  (forall k rq, respond env k rq = respond env' k rq) ->
  triples env ts = triples env' ts.
Proof.
  intros H. unfold triples. apply flat_map_ext. intros [k rq]. simpl.
  now rewrite H.
Qed.

(** X9: the order in which the calls complete never changes the value
    returned.  Two clients that answer every call alike, however long
    each of them takes, make [translate_file] write the same lines and
    [translate_dataset] return the same triples, or make neither return,
    for every [batch_size]. *)
Theorem X9_completion_order_irrelevant (service service' : Service)
    (client client' : Env) (texts target_langs lines : list str)
    (target_lang : str) (batch_size : Z) :
  (forall k rq, respond client k rq = respond client' k rq) ->
  (forall k rq, respond (service API_KEY) k rq = respond (service' API_KEY) k rq) ->
  output (translate_file client lines target_lang batch_size world0)
  = output (translate_file client' lines target_lang batch_size world0)
  /\ output (translate_dataset service texts target_langs batch_size world0)
     = output (translate_dataset service' texts target_langs batch_size world0).
Proof.
  intros Hc Hs.
  destruct (Z.lt_trichotomy batch_size 0) as [Hneg|[Hz|Hpos]].
  - rewrite !translate_file_negative, !translate_dataset_negative by assumption.
    split; reflexivity.
  - subst. split; reflexivity.
  - rewrite <- (Z2Nat.id batch_size) by lia. split.
    + rewrite !translate_file_output by lia.
      now rewrite (all_ok_ext _ _ _ Hc), (out_lines_ext _ _ _ Hc).
    + rewrite !translate_dataset_output by lia.
      now rewrite (all_ok_ext _ _ _ Hs), (triples_ext _ _ _ Hs).
Qed.

Lemma X9_witness :
  latency demo_env 0 <> latency demo_env_reversed 0
  /\ output (translate_file demo_env demo_lines (of_string "hi"%string) 2 world0)
     = output (translate_file demo_env_reversed demo_lines
                 (of_string "hi"%string) 2 world0)
  /\ output (translate_dataset demo_service (map of_string ["a"; "b"]%string)
               (map of_string ["x"]%string) 2 world0)
     = output (translate_dataset (fun _ => demo_env_reversed)
                 (map of_string ["a"; "b"]%string)
                 (map of_string ["x"]%string) 2 world0).
Proof.
  split; [discriminate|].
  apply X9_completion_order_irrelevant; intros k rq; reflexivity.
Defined.

(** ** The text that is sent *)

Lemma blank_app (s s' : str) : blank (s ++ s') = blank s && blank s'.
Proof. apply forallb_app. Qed.

Lemma blank_rev (s : str) : blank (rev s) = blank s.
Proof.
  induction s as [|c s IH]; simpl; [reflexivity|].
  rewrite blank_app, IH. simpl. rewrite andb_true_r. apply andb_comm.
Qed.

Lemma lstrip_split (s : str) :
  exists pre, s = pre ++ lstrip s /\ blank pre = true.
Proof.
  induction s as [|c s IH]; simpl.
  - exists []. auto.
  - destruct (isspace c) eqn:E.
    + destruct IH as (pre & Hs & Hb). exists (c :: pre). simpl.
      rewrite E, Hb. split; [now rewrite <- Hs | reflexivity].
    + exists []. auto.
Qed.

Lemma lstrip_hd (s : str) (c : N) :
  hd_error (lstrip s) = Some c -> isspace c = false.
Proof.
  induction s as [|d s IH]; simpl; [discriminate|].
  destruct (isspace d) eqn:E; [exact IH|]. simpl. congruence.
Qed.

Lemma rstrip_split (s : str) :
  exists post, s = rstrip s ++ post /\ blank post = true.
Proof.
  unfold rstrip. destruct (lstrip_split (rev s)) as (pre & Hs & Hb).
  exists (rev pre). split; [|now rewrite blank_rev].
  rewrite <- rev_app_distr, <- Hs. symmetry. apply rev_involutive.
Qed.

Lemma rstrip_last (s : str) (c : N) :
  hd_error (rev (rstrip s)) = Some c -> isspace c = false.
Proof. unfold rstrip. rewrite rev_involutive. apply lstrip_hd. Qed.

(** What [strip] keeps of a line: the line is the stripped text between
    two runs of whitespace, and the stripped text neither begins nor ends
    with whitespace. *)
Lemma strip_shape (s : str) :
  (exists pre post, s = pre ++ strip s ++ post
                    /\ blank pre = true /\ blank post = true)
  /\ (forall c, hd_error (strip s) = Some c -> isspace c = false)
  /\ (forall c, hd_error (rev (strip s)) = Some c -> isspace c = false).
Proof.
  unfold strip.
  destruct (lstrip_split s) as (pre & Hs & Hpre).
  destruct (rstrip_split (lstrip s)) as (post & Ht & Hpost).
  split; [|split].
  - exists pre, post. rewrite <- Ht. auto.
  - intros c Hc. apply (lstrip_hd s). rewrite Ht.
    destruct (rstrip (lstrip s)); [discriminate | exact Hc].
  - intros c. apply rstrip_last.
Qed.

(** Every call [translate_file] makes is for a line of the file that is
    not blank. *)
Lemma translate_file_issued (client : Env) (lines : list str) (target_lang : str)
    (batch_size : Z) (rq : TranslateReq) :
  In rq (issued (snd (translate_file client lines target_lang batch_size world0))) ->
  exists line, In line lines /\ blank line = false
               /\ rq = mkReq (strip line) target_lang true.
Proof.
  destruct (Z.lt_trichotomy batch_size 0) as [Hneg|[Hz|Hpos]].
  - rewrite translate_file_negative by assumption. simpl. tauto.
  - subst. rewrite translate_file_zero. simpl. tauto.
  - pose proof (@translate_file_positive client lines target_lang
                  (Z.to_nat batch_size) ltac:(lia)) as H.
    rewrite Z2Nat.id in H by lia.
    destruct (translate_file client lines target_lang batch_size world0)
      as [[out|e] w]; simpl.
    + destruct H as (Hiss & _). rewrite Hiss.
      rewrite <- (firstn_all lines) at 1. apply file_reqs_in.
    + destruct H as [_ (m & Hm)]. rewrite Hm. apply file_reqs_in.
Qed.

(** X10: the text of every call [translate_file] makes is a line of the
    file without the whitespace around it: the line is that text between
    two runs of whitespace, and the text is not empty and neither begins
    nor ends with a whitespace character.  The call carries the target
    language given and [auto_detect=True]. *)
Theorem X10_translate_file_sends_stripped_lines (client : Env)
    (lines : list str) (lang : str) (batch_size : Z) (rq : TranslateReq) :
  In rq (issued (snd (translate_file client lines lang batch_size world0))) ->
  (exists line pre post,
     In line lines /\ line = pre ++ text rq ++ post
     /\ blank pre = true /\ blank post = true)
  /\ text rq <> []
  /\ (forall c, hd_error (text rq) = Some c -> isspace c = false)
  /\ (forall c, hd_error (rev (text rq)) = Some c -> isspace c = false)
  /\ target_lang rq = lang /\ auto_detect rq = true.
Proof.
  intros Hin.
  destruct (translate_file_issued _ _ _ _ _ Hin) as (line & Hline & Hb & ->).
  simpl. destruct (strip_shape line) as ((pre & post & Hs & Hpre & Hpost) & Hh & Hl).
  split; [|split; [|split; [|split; [|split]]]]; auto.
  - exists line, pre, post. auto.
  - intros E. pose proof (strip_truthy line) as T.
    rewrite E, Hb in T. discriminate.
Qed.

Lemma X10_witness :
  let rq := mkReq (of_string "Bye"%string) (of_string "hi"%string) true in
  In rq (issued (snd (translate_file demo_env demo_lines (of_string "hi"%string)
                        2 world0)))
  /\ (exists line pre post,
        In line demo_lines /\ line = pre ++ text rq ++ post
        /\ blank pre = true /\ blank post = true).
Proof.
  cbv zeta. split; [vm_compute; auto|].
  refine (proj1 (@X10_translate_file_sends_stripped_lines demo_env demo_lines
                   (of_string "hi"%string) 2 _ _)).
  vm_compute. auto.
Defined.

(** ** The examples with one [gather] *)

Lemma create_codes (text : str) (target_langs : list (str * str)) :
  forall tasks w,
    for_each target_langs tasks
      (fun '(lang_code, _) tasks =>
         t <- create (mkReq text lang_code true) ;; ret (tasks ++ [t])) w
    = (Ret (tasks ++ number (length (issued w))
                       (map (fun p => mkReq text (fst p) true) target_langs)),
       mkWorld (issued w ++ map (fun p => mkReq text (fst p) true) target_langs)
               (events w)).
Proof.
  induction target_langs as [|[code name] langs IH]; intros tasks w.
  - simpl. unfold ret, number. simpl. rewrite !app_nil_r. now destruct w.
  - cbn [for_each]. unfold bind at 1. unfold bind at 1.
    unfold create, ret at 1. simpl. rewrite IH. simpl.
    rewrite length_app. simpl. rewrite <- !app_assoc. simpl.
    replace (length (issued w) + 1) with (S (length (issued w))) by lia.
    reflexivity.
Qed.

(** What the two examples that translate one text into several languages
    do, in one equation. *)
Lemma fan_out_eq (client : Env) (text : str) (target_langs : list (str * str))
    (w : World) :
  let rqs := map (fun p => mkReq text (fst p) true) target_langs in
  let tasks := number (length (issued w)) rqs in
  (tasks <-
     for_each target_langs [] (fun '(lang_code, _) tasks =>
       t <- create (mkReq text lang_code true) ;; ret (tasks ++ [t])) ;;
   results <- gather client tasks ;;
   ret (map (fun '((_, lang_name), result) => (lang_name, translated_text result))
            (zip target_langs results))) w
  = (match gather_exc client tasks with
     | Some e => Raise e
     | None =>
         Ret (map (fun '((_, lang_name), result) =>
                     (lang_name, translated_text result))
                  (zip target_langs (payloads client tasks)))
     end,
     mkWorld (issued w ++ rqs) (events w ++ gather_events client tasks)).
Proof.
  intros rqs tasks.
  unfold bind at 1. rewrite create_codes. simpl.
  fold rqs. fold tasks. unfold bind at 1. rewrite gather_eq. simpl.
  destruct (gather_exc client tasks); reflexivity.
Qed.

(** One [gather] has all its coroutines in flight at once. *)
Lemma gather_events_peak (env : Env) (tasks : list Task) :
  peak (gather_events env tasks) = length tasks.
Proof.
  destruct (gather_events_shape env tasks) as (ds & E & _).
  rewrite E. unfold peak.
  rewrite peak_from_app, peak_from_starts, in_flight_from_starts,
    peak_from_dones, !length_map.
  simpl. apply Nat.max_id.
Qed.

(** X11: the examples that hand everything to one [gather] have no limit
    on the calls in flight: in every run of [batch_translations],
    [compare_translations] and [multi_language_translation], whether it
    returns or raises, the number of calls in flight reaches the number of
    texts, or of target languages, given. *)
Theorem X11_one_gather_has_no_limit (service : Service) (texts : list str)
    (text : str) (target_langs : list (str * str)) :
  peak (events (snd (batch_translations_on service texts world0)))
  = length texts
  /\ peak (events (snd (compare_translations_on service text target_langs world0)))
     = length target_langs
  /\ peak (events (snd (multi_language_translation_on service text target_langs
                          world0)))
     = length target_langs.
Proof.
  split; [|split].
  - rewrite batch_translations_on_eq. cbv zeta. simpl.
    rewrite gather_events_peak, number_length. apply length_map.
  - unfold compare_translations_on. rewrite fan_out_eq. cbv zeta. simpl.
    rewrite gather_events_peak, number_length. apply length_map.
  - unfold multi_language_translation_on. rewrite fan_out_eq. cbv zeta. simpl.
    rewrite gather_events_peak, number_length. apply length_map.
Qed.

Lemma nth_error_combine {A B} (l : list A) (l' : list B) :
  forall i a b,
    nth_error l i = Some a -> nth_error l' i = Some b ->
    nth_error (combine l l') i = Some (a, b).
Proof.
  revert l'. induction l as [|x l IH]; intros [|y l'] [|i] a b; simpl;
    try discriminate.
  - congruence.
  - apply IH.
Qed.

(** The rows of the two examples, position by position. *)
Lemma fan_out_rows (client : Env) (text : str) (target_langs : list (str * str)) :
  let tasks := number 0 (map (fun p => mkReq text (fst p) true) target_langs) in
  gather_exc client tasks = None ->
  let rows := map (fun '((_, lang_name), result) =>
                     (lang_name, translated_text result))
                  (zip target_langs (payloads client tasks)) in
  length rows = length target_langs
  /\ forall i code name, nth_error target_langs i = Some (code, name) ->
       exists r, respond client i (mkReq text code true) = Success r
                 /\ nth_error rows i = Some (name, translated_text r).
Proof.
  intros tasks Hret rows. apply gather_exc_none in Hret.
  destruct (payloads_nth client tasks Hret) as [Hlen Hnth].
  assert (length tasks = length target_langs) as Ht
    by (unfold tasks; now rewrite number_length, length_map).
  split.
  - unfold rows, zip. rewrite length_map, length_combine. lia.
  - intros i code name Hi.
    assert (In (0 + i, mkReq text code true) tasks) as Hin.
    { apply number_nth. now rewrite nth_error_map, Hi. }
    assert (nth_error tasks i = Some (i, mkReq text code true)) as Hti.
    { unfold tasks, number.
      apply nth_error_combine.
      - rewrite nth_error_seq.
        assert (i < length target_langs) as Hlt
          by (apply nth_error_Some; congruence).
        rewrite length_map.
        destruct (Nat.ltb_spec i (length target_langs)); [reflexivity | lia].
      - now rewrite nth_error_map, Hi. }
    destruct (Hnth i i _ Hti) as (r & Hr & Hp).
    exists r. split; [exact Hr|].
    unfold rows, zip. rewrite nth_error_map.
    now rewrite (nth_error_combine _ _ _ Hi Hp).
Qed.

Lemma fan_out_returns (client : Env) (text : str)
    (target_langs : list (str * str)) (rows : list (str * str)) (w : World) :
  (tasks <-
     for_each target_langs [] (fun '(lang_code, _) tasks =>
       t <- create (mkReq text lang_code true) ;; ret (tasks ++ [t])) ;;
   results <- gather client tasks ;;
   ret (map (fun '((_, lang_name), result) => (lang_name, translated_text result))
            (zip target_langs results))) world0 = (Ret rows, w) ->
  issued w = map (fun p => mkReq text (fst p) true) target_langs
  /\ length rows = length target_langs
  /\ forall i code name, nth_error target_langs i = Some (code, name) ->
       exists r, respond client i (mkReq text code true) = Success r
                 /\ nth_error rows i = Some (name, translated_text r).
Proof.
  intros Hrun. rewrite fan_out_eq in Hrun. cbv zeta in Hrun.
  change (length (issued world0)) with 0 in Hrun.
  destruct (gather_exc client
              (number 0 (map (fun p => mkReq text (fst p) true) target_langs)))
    eqn:E; [discriminate|].
  inversion Hrun; subst rows w. split; [reflexivity|].
  exact (fan_out_rows client text target_langs E).
Qed.

(** X12: when [compare_translations] or [multi_language_translation]
    returns, it has made one call per target language, in order, and it
    prints one row per target language: row [i] pairs the name of
    language [i] with the translation returned by the call for the code of
    language [i]. *)
Theorem X12_rows_match_languages (service : Service) (text : str)
    (target_langs : list (str * str)) :
  (forall rows w,
     compare_translations_on service text target_langs world0 = (Ret rows, w) ->
     issued w = map (fun p => mkReq text (fst p) true) target_langs
     /\ length rows = length target_langs
     /\ forall i code name, nth_error target_langs i = Some (code, name) ->
          exists r, respond (service API_KEY) i (mkReq text code true) = Success r
                    /\ nth_error rows i = Some (name, translated_text r))
  /\ (forall rows w,
        multi_language_translation_on service text target_langs world0
        = (Ret rows, w) ->
        issued w = map (fun p => mkReq text (fst p) true) target_langs
        /\ length rows = length target_langs
        /\ forall i code name, nth_error target_langs i = Some (code, name) ->
             exists r,
               respond (service (of_string "sk-your-api-key"%string)) i
                       (mkReq text code true) = Success r
               /\ nth_error rows i = Some (name, translated_text r)).
Proof.
  split; intros rows w Hrun.
  - exact (fan_out_returns (service API_KEY) text target_langs Hrun).
  - exact (fan_out_returns (service (of_string "sk-your-api-key"%string))
             text target_langs Hrun).
Qed.

Lemma X12_witness :
  let text := of_string "Good morning"%string in
  let target_langs := [(of_string "hin_Deva"%string, of_string "Hindi"%string);
                       (of_string "tam_Taml"%string, of_string "Tamil"%string)] in
  exists rows w,
    compare_translations_on demo_service text target_langs world0 = (Ret rows, w)
    /\ length rows = length target_langs.
Proof.
  cbv zeta. eexists. eexists. split; [vm_compute; reflexivity|].
  refine (proj1 (proj2 (proj1 (@X12_rows_match_languages demo_service
            (of_string "Good morning"%string)
            [(of_string "hin_Deva"%string, of_string "Hindi"%string);
             (of_string "tam_Taml"%string, of_string "Tamil"%string)]) _ _ _))).
  vm_compute. reflexivity.
Defined.

(** The run of [compare_translations] as the example has it: five calls,
    all in flight together, five rows. *)
Example compare_translations_run :
  let run := compare_translations demo_service world0 in
  map fst (match fst run with Ret rows => rows | Raise _ => [] end)
  = map of_string ["Hindi"; "Tamil"; "Bengali"; "Telugu"; "Marathi"]%string
  /\ length (issued (snd run)) = 5
  /\ peak (events (snd run)) = 5.
Proof. cbv zeta. repeat split; vm_compute; reflexivity. Qed.

(** ** [progressive_translation] *)

(** The loop from any state, when it returns: it has made one call and
    printed one row per step, the call of step [k] asks for the target
    language of step [k] and its translation is the one printed, the
    first call carries the current text and language, and every later
    call carries the translation and the target language of the call
    before it. *)
Lemma progressive_loop_returns (client : Backend) (chain : list (str * str)) :
  forall current_text current_lang printed calls printed' calls',
    progressive_loop client chain current_text current_lang printed calls
    = (Ret printed', calls') ->
    exists new rows,
      calls' = calls ++ new /\ printed' = printed ++ rows
      /\ length new = length chain /\ length rows = length chain
      /\ (forall k tl name, nth_error chain k = Some (tl, name) ->
            exists args r,
              nth_error new k = Some args
              /\ arg_target_lang args = tl /\ arg_auto_detect args = None
              /\ client (length calls + k) args = Success r
              /\ nth_error rows k = Some (name, translated_text r))
      /\ (forall args, nth_error new 0 = Some args ->
            arg_text args = current_text
            /\ arg_source_lang args = Some current_lang)
      /\ (forall k args args' r,
            nth_error new k = Some args -> nth_error new (S k) = Some args' ->
            client (length calls + k) args = Success r ->
            arg_text args' = translated_text r
            /\ arg_source_lang args' = Some (arg_target_lang args)).
Proof.
  induction chain as [|[tl name] chain IH];
    intros current_text current_lang printed calls printed' calls' Hrun;
    simpl in Hrun.
  - inversion Hrun; subst. exists [], []. rewrite !app_nil_r.
    do 4 (split; [reflexivity|]). split; [|split].
    + intros [|k] tl name H; discriminate.
    + intros args H; discriminate.
    + intros [|k] args args' r H; discriminate.
  - set (args0 := mkArgs current_text (Some current_lang) tl None) in *.
    destruct (client (length calls) args0) as [r0|e] eqn:E0; [|discriminate].
    destruct (IH _ _ _ _ _ _ Hrun)
      as (new & rows & Hc & Hp & Hln & Hlr & Hstep & Hfirst & Hlink).
    rewrite length_app in Hstep, Hlink. simpl in Hstep, Hlink.
    exists (args0 :: new), ((name, translated_text r0) :: rows).
    rewrite Hc, Hp, <- !app_assoc. simpl. rewrite Hln, Hlr.
    do 4 (split; [reflexivity|]). split; [|split].
    + intros [|k] tl' name' H; simpl in H.
      * inversion H; subst tl' name'. exists args0, r0.
        rewrite Nat.add_0_r. auto.
      * destruct (Hstep k tl' name' H) as (args & r & Ha & Ht & Hd & Hr & Hrow).
        exists args, r. simpl.
        replace (length calls + S k) with (length calls + 1 + k) by lia. auto.
    + intros args H. simpl in H. inversion H; subst args. auto.
    + intros [|k] args args' r H H' Hr; simpl in H, H'.
      * inversion H; subst args. rewrite Nat.add_0_r in Hr.
        assert (r = r0) by congruence. subst r.
        destruct (Hfirst _ H') as [Ht Hs]. auto.
      * replace (length calls + S k) with (length calls + 1 + k) in Hr by lia.
        exact (Hlink k args args' r H H' Hr).
Qed.

(** X13: when [progressive_translation] returns, it has made one call and
    printed one row per step of the chain.  The call of step [k] asks for
    the target language of step [k], passes no [auto_detect], and its
    translation is the one printed in row [k].  The first call carries the
    starting text and language; every later call carries the translation
    returned by the call before it as its text, and the target language of
    the call before it as its source language. *)
Theorem X13_progressive_translation_chains (client : Backend)
    (current_text current_lang : str) (chain : list (str * str))
    (printed : list (str * str)) (calls : list CreateArgs) :
  progressive_translation_on client current_text current_lang chain
  = (Ret printed, calls) ->
  length calls = length chain /\ length printed = length chain
  /\ (forall k tl name, nth_error chain k = Some (tl, name) ->
        exists args r,
          nth_error calls k = Some args
          /\ arg_target_lang args = tl /\ arg_auto_detect args = None
          /\ client k args = Success r
          /\ nth_error printed k = Some (name, translated_text r))
  /\ (forall args, nth_error calls 0 = Some args ->
        arg_text args = current_text
        /\ arg_source_lang args = Some current_lang)
  /\ (forall k args args' r,
        nth_error calls k = Some args -> nth_error calls (S k) = Some args' ->
        client k args = Success r ->
        arg_text args' = translated_text r
        /\ arg_source_lang args' = Some (arg_target_lang args)).
Proof.
  intros Hrun. unfold progressive_translation_on in Hrun.
  destruct (progressive_loop_returns _ _ _ _ _ _ Hrun)
    as (new & rows & Hc & Hp & Hln & Hlr & Hstep & Hfirst & Hlink).
  simpl in Hc, Hp, Hstep, Hlink. subst calls printed. auto 8.
Qed.

Lemma X13_witness :
  let chain := [(of_string "hi"%string, of_string "Hindi"%string);
                (of_string "en"%string, of_string "English"%string)] in
  exists printed calls,
    progressive_translation_on (backend_failing_at 7) (of_string "Hello"%string)
      (of_string "en"%string) chain = (Ret printed, calls)
    /\ length calls = length chain /\ length printed = length chain.
Proof.
  cbv zeta. eexists. eexists. split; [vm_compute; reflexivity|].
  pose proof (@X13_progressive_translation_chains (backend_failing_at 7)
                (of_string "Hello"%string) (of_string "en"%string)
                [(of_string "hi"%string, of_string "Hindi"%string);
                 (of_string "en"%string, of_string "English"%string)] _ _
                ltac:(vm_compute; reflexivity)) as H.
  split; apply H.
Defined.

(** The run of [progressive_translation] as the example has it, on a
    client that appends the language code: four calls, each fed with the
    result of the one before. *)
Example progressive_translation_run :
  let run := progressive_translation (fun _ => backend_failing_at 7) in
  map arg_text (snd run)
  = map of_string ["Knowledge is power"; "Knowledge is powerhin_Deva";
                   "Knowledge is powerhin_Devaben_Beng";
                   "Knowledge is powerhin_Devaben_Bengtam_Taml"]%string
  /\ map arg_source_lang (snd run)
     = map (fun c => Some (of_string c))
           ["eng_Latn"; "hin_Deva"; "ben_Beng"; "tam_Taml"]%string.
Proof. cbv zeta. split; vm_compute; reflexivity. Qed.

(** The loop from any state, when it raises: the last call made is the one
    that raised, every call before it returned, and there is at most one
    call per step. *)
Lemma progressive_loop_raises (client : Backend) (chain : list (str * str)) :
  forall current_text current_lang printed calls e calls',
    progressive_loop client chain current_text current_lang printed calls
    = (Raise e, calls') ->
    exists new,
      calls' = calls ++ new
      /\ 1 <= length new <= length chain
      /\ (forall k args, S k < length new -> nth_error new k = Some args ->
            exists r, client (length calls + k) args = Success r)
      /\ (exists args, nth_error new (length new - 1) = Some args
                       /\ client (length calls + (length new - 1)) args
                          = Failure e).
Proof.
  induction chain as [|[tl name] chain IH];
    intros current_text current_lang printed calls e calls' Hrun;
    simpl in Hrun; [discriminate|].
  set (args0 := mkArgs current_text (Some current_lang) tl None) in *.
  destruct (client (length calls) args0) as [r0|e0] eqn:E0.
  - destruct (IH _ _ _ _ _ _ Hrun) as (new & Hc & Hlen & Hbefore & Hlast).
    rewrite length_app in Hbefore, Hlast. simpl in Hbefore, Hlast.
    exists (args0 :: new). rewrite Hc, <- app_assoc. simpl.
    split; [reflexivity|]. split; [lia|]. split.
    + intros [|k] args Hk H; simpl in H.
      * inversion H; subst args. rewrite Nat.add_0_r. eauto.
      * replace (length calls + S k) with (length calls + 1 + k) by lia.
        apply Hbefore; [lia | exact H].
    + destruct Hlast as (args & Hn & Hf). exists args.
      rewrite Nat.sub_0_r.
      destruct (length new) as [|n] eqn:En; [lia|].
      simpl in Hn, Hf. rewrite Nat.sub_0_r in Hn, Hf. simpl. split; [exact Hn|].
      replace (length calls + S n) with (length calls + 1 + n) by lia.
      exact Hf.
  - inversion Hrun; subst e0 calls'. exists [args0]. simpl.
    split; [reflexivity|]. split; [lia|]. split.
    + intros k args Hk. lia.
    + exists args0. rewrite Nat.add_0_r. auto.
Qed.

(** X14: [progressive_translation] stops at the first call that raises.
    When it raises [e], the last call it made is the one that raised [e],
    every call before it returned, and the steps after it made no call:
    there are at most as many calls as steps. *)
Theorem X14_progressive_translation_stops (client : Backend)
    (current_text current_lang : str) (chain : list (str * str))
    (e : Exc) (calls : list CreateArgs) :
  progressive_translation_on client current_text current_lang chain
  = (Raise e, calls) ->
  1 <= length calls <= length chain
  /\ (forall k args, S k < length calls -> nth_error calls k = Some args ->
        exists r, client k args = Success r)
  /\ (exists args, nth_error calls (length calls - 1) = Some args
                   /\ client (length calls - 1) args = Failure e).
Proof.
  intros Hrun. unfold progressive_translation_on in Hrun.
  destruct (progressive_loop_raises _ _ _ _ _ _ Hrun)
    as (new & Hc & Hlen & Hbefore & Hlast).
  simpl in Hc, Hbefore, Hlast. subst calls. auto.
Qed.

Lemma X14_witness :
  let chain := [(of_string "hi"%string, of_string "Hindi"%string);
                (of_string "bn"%string, of_string "Bengali"%string);
                (of_string "en"%string, of_string "English"%string)] in
  exists calls,
    progressive_translation_on (backend_failing_at 1) (of_string "Hello"%string)
      (of_string "en"%string) chain = (Raise ZabanError, calls)
    /\ length calls = 2
    /\ 1 <= length calls <= length chain.
Proof.
  cbv zeta. eexists. split; [vm_compute; reflexivity|].
  split; [reflexivity|].
  refine (proj1 (@X14_progressive_translation_stops (backend_failing_at 1)
                   (of_string "Hello"%string) (of_string "en"%string)
                   [(of_string "hi"%string, of_string "Hindi"%string);
                    (of_string "bn"%string, of_string "Bengali"%string);
                    (of_string "en"%string, of_string "English"%string)]
                   ZabanError _ _)).
  vm_compute. reflexivity.
Defined.

(** ** Where [translate_dataset] stops *)

Lemma dataset_reqs_app (target_langs texts texts' : list str) :
  dataset_reqs target_langs (texts ++ texts')
  = dataset_reqs target_langs texts ++ dataset_reqs target_langs texts'.
Proof. apply flat_map_app. Qed.

(** Some coroutine raises: which one. *)
Lemma all_ok_false (env : Env) (rqs : list TranslateReq) :
  forall n,
    all_ok env (number n rqs) = false ->
    exists j rq e, nth_error rqs j = Some rq
                   /\ respond env (n + j) rq = Failure e.
Proof.
  unfold number. induction rqs as [|rq rqs IH]; intros n; simpl; [discriminate|].
  unfold task_ok at 1. simpl.
  destruct (respond env n rq) as [r|e] eqn:E; simpl.
  - intros H. destruct (IH _ H) as (j & rq' & e & Hj & Hf).
    exists (S j), rq', e. split; [exact Hj|].
    now replace (n + S j) with (S n + j) by lia.
  - intros _. exists 0, rq, e. rewrite Nat.add_0_r. auto.
Qed.

(** When the loop raises, it raises in some group [n]: the calls made are
    those of the groups up to [n], those of the groups before [n] all
    returned, and one of group [n] raised. *)
Lemma dataset_loop_raises (client : Env) (target_langs : list str)
    (cs : list (list str)) :
  forall acc w e w',
    for_each cs acc (dataset_step client target_langs) w = (Raise e, w') ->
    exists n,
      n < length cs
      /\ issued w' = issued w
           ++ dataset_reqs target_langs (concat (firstn (S n) cs))
      /\ all_ok client (number (length (issued w))
                          (dataset_reqs target_langs (concat (firstn n cs))))
         = true
      /\ all_ok client (number (length (issued w))
                          (dataset_reqs target_langs (concat (firstn (S n) cs))))
         = false.
Proof.
  induction cs as [|c cs IH]; intros [results processed] w e w' Hrun;
    cbn [for_each] in Hrun; [discriminate|].
  unfold bind in Hrun. rewrite dataset_step_eq in Hrun. cbv zeta in Hrun.
  set (rqs := dataset_reqs target_langs c) in *.
  destruct (gather_exc client (number (length (issued w)) rqs)) as [e0|] eqn:E.
  - inversion Hrun; subst e0 w'. exists 0. simpl. rewrite app_nil_r. fold rqs.
    split; [lia|]. split; [reflexivity|]. split; [reflexivity|].
    destruct (all_ok client (number (length (issued w)) rqs)) eqn:Eok;
      [|reflexivity].
    rewrite gather_exc_ok in E by assumption. discriminate.
  - apply gather_exc_none in E.
    destruct (IH _ _ _ _ Hrun) as (n & Hn & Hiss & Hbefore & Hfail).
    simpl in Hiss, Hbefore, Hfail. rewrite length_app in Hbefore, Hfail.
    exists (S n). cbn [firstn concat length].
    rewrite !dataset_reqs_app. fold rqs.
    split; [lia|]. split; [now rewrite Hiss, <- app_assoc|].
    rewrite !number_app, !all_ok_app, E. simpl. auto.
Qed.

(** X15: [translate_dataset] stops at the end of the first group in which
    a call raises.  With a positive [batch_size], if call [i] is the first
    one that raises, every call made for the group of texts that holds
    call [i] and for the groups before it is made, and no other: the
    calls made are those of the first [(i / (batch_size * len(target_langs))
    + 1) * batch_size] texts. *)
Theorem X15_translate_dataset_stops_after_group (service : Service)
    (texts target_langs : list str) (b i : nat) (rq : TranslateReq) (e : Exc) :
  0 < b ->
  nth_error (dataset_reqs target_langs texts) i = Some rq ->
  respond (service API_KEY) i rq = Failure e ->
  (forall j rq', j < i ->
     nth_error (dataset_reqs target_langs texts) j = Some rq' ->
     exists r, respond (service API_KEY) j rq' = Success r) ->
  exists e' w,
    translate_dataset service texts target_langs (Z.of_nat b) world0
    = (Raise e', w)
    /\ issued w
       = dataset_reqs target_langs
           (firstn ((i / (b * length target_langs) + 1) * b) texts).
Proof.
  intros Hb Hi Hfail Hfirst. set (client := service API_KEY) in *.
  set (L := length target_langs).
  assert (i < length texts * L) as HiN.
  { unfold L. rewrite <- dataset_reqs_length. apply nth_error_Some.
    congruence. }
  assert (0 < L) as HL by (destruct L; lia).
  (* the run raises, and it is the loop that does *)
  pose proof (translate_dataset_positive service texts target_langs Hb) as Hpos.
  cbv zeta in Hpos. fold client in Hpos.
  rewrite translate_dataset_chunks in Hpos by assumption.
  rewrite translate_dataset_chunks by assumption.
  fold client. fold client in Hpos.
  unfold bind at 1 in Hpos. unfold bind at 1.
  pose proof (@dataset_loop_raises client target_langs (chunks b texts)
                ([], 0) world0) as Hsplit.
  destruct (for_each (chunks b texts) ([], 0)
              (dataset_step client target_langs) world0) as [[acc|e'] w].
  { exfalso. unfold bind, elapsed_over in Hpos. fold L in Hpos.
    destruct (Nat.eqb_spec (length texts * L) 0) as [Ez|Ez]; [lia|].
    simpl in Hpos. destruct Hpos as (Hiss & Hok & _). rewrite Hiss in Hok.
    apply (number_nth 0) in Hi.
    destruct (@all_ok_in client _ _ _ Hok Hi) as [r Hr]. simpl in Hr.
    congruence. }
  exists e', w. split; [reflexivity|].
  destruct (Hsplit e' w eq_refl) as (n & Hn & Hiss & Hbefore & Hafter).
  rewrite !concat_firstn_chunks in Hiss, Hbefore, Hafter by lia.
  change (issued world0) with (@nil TranslateReq) in Hiss, Hbefore, Hafter.
  change (length (@nil TranslateReq)) with 0 in Hbefore, Hafter.
  rewrite app_nil_l in Hiss. rewrite Hiss. do 2 f_equal.
  (* group [n] is the group of call [i] *)
  assert (n * b < length texts) as Hnb.
  { unfold chunks in Hn. rewrite length_map, length_seq in Hn.
    unfold num_chunks in Hn.
    assert (n <= (length texts + b - 1) / b - 1) as Hle by lia.
    pose proof (Nat.div_mod_eq (length texts + b - 1) b) as Ed.
    pose proof (Nat.mod_upper_bound (length texts + b - 1) b ltac:(lia)) as Um.
    nia. }
  assert (n * b * L <= i) as Hlo.
  { destruct (Nat.le_gt_cases (n * b * L) i) as [H|H]; [exact H|]. exfalso.
    assert (nth_error (dataset_reqs target_langs (firstn (n * b) texts)) i
            = Some rq) as Hpre.
    { rewrite <- (firstn_skipn (n * b) texts), dataset_reqs_app in Hi.
      rewrite nth_error_app1 in Hi; [exact Hi|].
      rewrite dataset_reqs_length, length_firstn. fold L. nia. }
    apply (number_nth 0) in Hpre.
    destruct (@all_ok_in client _ _ _ Hbefore Hpre) as [r Hr]. simpl in Hr.
    congruence. }
  assert (i < (S n * b) * L) as Hhi.
  { destruct (all_ok_false client _ 0 Hafter) as (j & rq' & e0 & Hj & Hf).
    simpl in Hf.
    assert (j < length (dataset_reqs target_langs (firstn (S n * b) texts)))
      as Hjl by (apply nth_error_Some; congruence).
    rewrite dataset_reqs_length, length_firstn in Hjl. fold L in Hjl.
    apply dataset_reqs_prefix in Hj.
    destruct (Nat.le_gt_cases i j) as [H|H]; [nia|]. exfalso.
    destruct (Hfirst j rq' H Hj) as [r Hr]. congruence. }
  assert (i / (b * L) = n) as Hq.
  { symmetry. apply (Nat.div_unique i (b * L) n (i - n * b * L)); nia. }
  rewrite Hq. lia.
Qed.

Lemma X15_witness :
  let texts := map of_string ["a"; "b"; "c"; "d"; "e"]%string in
  let target_langs := [of_string "x"%string] in
  exists e' w,
    translate_dataset (fun _ => env_failing_at 3) texts target_langs
      (Z.of_nat 2) world0 = (Raise e', w)
    /\ issued w = dataset_reqs target_langs (firstn 4 texts).
Proof.
  cbv zeta.
  apply (@X15_translate_dataset_stops_after_group (fun _ => env_failing_at 3)
           (map of_string ["a"; "b"; "c"; "d"; "e"]%string)
           [of_string "x"%string] 2 3
           (mkReq (of_string "d"%string) (of_string "x"%string) true) ZabanError).
  - lia.
  - reflexivity.
  - reflexivity.
  - intros j rq' Hj _. simpl.
    destruct (Nat.eqb_spec j 3) as [->|_]; [lia | eauto].
Defined.

(** ** The triples of [translate_dataset], by position *)

Lemma dataset_reqs_nth (target_langs texts : list str) :
  forall i j text tl,
    nth_error texts i = Some text -> nth_error target_langs j = Some tl ->
    nth_error (dataset_reqs target_langs texts) (i * length target_langs + j)
    = Some (mkReq text tl true).
Proof.
  unfold dataset_reqs.
  induction texts as [|t texts IH]; intros i j text tl Hi Hj.
  - destruct i; discriminate.
  - assert (j < length target_langs) as Hlt
      by (apply nth_error_Some; congruence).
    cbn [flat_map]. destruct i as [|i]; simpl in Hi.
    + inversion Hi; subst t. simpl.
      rewrite nth_error_app1 by now rewrite length_map.
      now rewrite nth_error_map, Hj.
    + rewrite nth_error_app2 by (rewrite length_map; simpl; lia).
      rewrite length_map.
      replace (S i * length target_langs + j - length target_langs)
        with (i * length target_langs + j) by (simpl; lia).
      now apply IH.
Qed.

(** X16: when [translate_dataset] returns with a positive [batch_size],
    the triple of text [i] and target language [j] stands at position
    [i * len(target_langs) + j] of the result: it holds that text, that
    language, and the translation returned by call number
    [i * len(target_langs) + j], made for that text and that language.  The
    result has [len(texts) * len(target_langs)] triples. *)
Theorem X16_translate_dataset_triples_by_position (service : Service)
    (texts target_langs : list str) (batch_size : Z)
    (rs : list (str * str * str)) (w : World) :
  (0 < batch_size)%Z ->
  translate_dataset service texts target_langs batch_size world0 = (Ret rs, w) ->
  length rs = length texts * length target_langs
  /\ forall i j text tl,
       nth_error texts i = Some text -> nth_error target_langs j = Some tl ->
       exists r,
         respond (service API_KEY) (i * length target_langs + j)
                 (mkReq text tl true) = Success r
         /\ nth_error rs (i * length target_langs + j)
            = Some (text, tl, translated_text r).
Proof.
  intros Hb Hrun.
  pose proof (@translate_dataset_positive service texts target_langs
                (Z.to_nat batch_size) ltac:(lia)) as H.
  rewrite Z2Nat.id in H by lia. rewrite Hrun in H. cbv zeta in H.
  destruct H as (Hiss & Hok & Hrs & _). rewrite Hiss in Hok, Hrs. split.
  - rewrite Hrs, triples_length by assumption.
    now rewrite number_length, dataset_reqs_length.
  - intros i j text tl Hi Hj.
    pose proof (dataset_reqs_nth target_langs texts i j Hi Hj) as Hn.
    destruct (triples_nth (service API_KEY) _ 0 _ Hok Hn) as (r & Hr & Ht).
    exists r. rewrite Hrs. auto.
Qed.

Lemma X16_witness :
  exists rs w,
    translate_dataset demo_service (map of_string ["a"; "b"; "c"]%string)
      (map of_string ["x"; "y"]%string) 2 world0 = (Ret rs, w)
    /\ length rs = 3 * 2.
Proof.
  eexists. eexists. split; [vm_compute; reflexivity|].
  refine (proj1 (@X16_translate_dataset_triples_by_position demo_service
                   (map of_string ["a"; "b"; "c"]%string)
                   (map of_string ["x"; "y"]%string) 2 _ _ ltac:(lia) _)).
  vm_compute. reflexivity.
Defined.
